(** * Archive-OmniDash: the snapshot store and the Wayback client

    A shallow embedding of [src/services/storageService.ts] (the
    [StorageService] class over IndexedDB) and of
    [src/services/waybackService.ts] (the three Wayback calls), with the
    properties the specification states about them.

    The browser is the environment of both files.  Its parts are modelled
    after their standards: an IndexedDB engine (databases by name, object
    stores with in-line keys, requests that either succeed or fire
    [onerror]), [localStorage], [JSON.parse] and [fetch]. *)

From Stdlib Require Import ZArith String Ascii List Lia Permutation.
From Stdlib Require Import Sorting.Sorted.
From stdpp Require Import base option gmap strings list pretty.

Local Open Scope string_scope.
Local Open Scope Z_scope.

(** ** JavaScript values shared by both services *)

Module Js.

(** What a promise is rejected with, or what a [throw] carries: a
    [DOMException] (by name), an [Error] (by message), or a bare string as
    in [reject('Database not initialized')]. *)
Inductive Thrown :=
| DOMException (name : string)
| Error (message : string)
| Reason (text : string).

(** The settled state of a promise. *)
Inductive Outcome (A : Type) :=
| Resolved (a : A)
| Rejected (e : Thrown).
Arguments Resolved {A} a.
Arguments Rejected {A} e.

(** An asynchronous function over a state [S], run to the point where its
    promise settles. *)
Definition Async (S A : Type) : Type := S -> Outcome A * S.

Definition resolve {S A} (a : A) : Async S A := fun s => (Resolved a, s).
Definition reject {S A} (e : Thrown) : Async S A := fun s => (Rejected e, s).

(** [throw e] in an async function rejects its promise. *)
Definition throw {S A} (e : Thrown) : Async S A := fun s => (Rejected e, s).

(** A value, or an exception, that is there already. *)
Definition settle {S A} (o : Outcome A) : Async S A := fun s => (o, s).

(** [const x = await m; k] *)
Definition andThen {S A B} (m : Async S A) (k : A -> Async S B) : Async S B :=
  fun s =>
    match m s with
    | (Resolved a, s) => k a s
    | (Rejected e, s) => (Rejected e, s)
    end.

(** [try { m } catch (error) { handler }] *)
Definition tryCatch {S A} (m : Async S A) (handler : Thrown -> Async S A) : Async S A :=
  fun s =>
    match m s with
    | (Resolved a, s) => (Resolved a, s)
    | (Rejected e, s) => handler e s
    end.

Notation "'await' x <~ m ; k" := (andThen m (fun x => k))
  (at level 10, x name, m at level 99, k at level 200, only parsing).

Section Sort.
Context {A : Type}.
(** The comparator of [Array.prototype.sort]: negative when the first
    argument goes first, positive when it goes last. *)
Variable cmp : A -> A -> Z.

(** [x] is placed before the first element it does not have to follow. *)
Fixpoint insert_by (x : A) (l : list A) : list A :=
  match l with
  | [] => [x]
  | y :: t => if cmp x y <=? 0 then x :: y :: t else y :: insert_by x t
  end.

(** [Array.prototype.sort(cmp)]: a stable sort (ECMAScript 2019), here by
    insertion from the right, so that of two elements that compare equal
    the one that came first stays first. *)
Definition sort (l : list A) : list A := foldr insert_by [] l.
End Sort.

End Js.

Export Js.

(** ** The IndexedDB engine *)

Module Idb.

(** Modelled from the spec: the [SavedSnapshot] interface of [types.ts],
    which is not among the sources.  [id], [originalUrl], [timestamp] and
    [savedAt] are the fields of the data model; [title] and [status] are the
    descriptive payload it mentions.  [savedAt] is an epoch time in
    milliseconds, an integer. *)
Record SavedSnapshot := {
  id : string;
  originalUrl : string;
  timestamp : string;
  savedAt : Z;
  title : string;
  status : string
}.

#[global] Instance SavedSnapshot_eq_dec : EqDecision SavedSnapshot.
Proof. solve_decision. Defined.

(** Keys of an object store: numbers and strings. *)
Inductive Key :=
| KNum (n : Z)
| KStr (s : string).

#[global] Instance Key_eq_dec : EqDecision Key.
Proof. solve_decision. Defined.

#[global] Instance Key_countable : Countable Key.
Proof.
  refine (inj_countable'
            (fun k => match k with KNum n => inl n | KStr s => inr s end)
            (fun x => match x with inl n => KNum n | inr s => KStr s end) _).
  intros []; reflexivity.
Defined.

(** *** Strings as keys

    A string of the model holds a JavaScript string in UTF-8, a surrogate
    that stands alone being written as the three bytes of its code point.
    The engine compares strings by their UTF-16 code units, so the order of
    the keys goes through [code_units]. *)

Definition octet (a : ascii) : Z := Z.of_N (N_of_ascii a).

(** A byte 10xxxxxx. *)
Definition continuation (b : Z) : bool := (128 <=? b) && (b <? 192).

(** The UTF-16 code units of a string.  One byte below 128 is one unit; two
    bytes 110xxxxx 10xxxxxx from 194 on, and three bytes 1110xxxx 10xxxxxx
    10xxxxxx of a code point from 2048 on, are one unit; four bytes 11110xxx
    10xxxxxx 10xxxxxx 10xxxxxx of a code point from 65536 to 1114111 are the
    two units of a surrogate pair.  A byte that begins none of these stands
    for U+FFFD (65533), and decoding goes on after it. *)
Fixpoint code_units (s : string) : list Z :=
  match s with
  | EmptyString => []
  | String a0 s1 =>
      let b0 := octet a0 in
      if b0 <? 128 then b0 :: code_units s1
      else
        match s1 with
        | EmptyString => 65533 :: code_units s1
        | String a1 s2 =>
            let b1 := octet a1 in
            if (194 <=? b0) && (b0 <? 224) then
              if continuation b1
              then ((b0 - 192) * 64 + (b1 - 128)) :: code_units s2
              else 65533 :: code_units s1
            else
              match s2 with
              | EmptyString => 65533 :: code_units s1
              | String a2 s3 =>
                  let b2 := octet a2 in
                  if (224 <=? b0) && (b0 <? 240) then
                    let c := (b0 - 224) * 4096 + (b1 - 128) * 64 + (b2 - 128) in
                    if continuation b1 && continuation b2 && (2048 <=? c)
                    then c :: code_units s3
                    else 65533 :: code_units s1
                  else
                    match s3 with
                    | EmptyString => 65533 :: code_units s1
                    | String a3 s4 =>
                        let b3 := octet a3 in
                        let c := (b0 - 240) * 262144 + (b1 - 128) * 4096
                                 + (b2 - 128) * 64 + (b3 - 128) in
                        if (240 <=? b0) && continuation b1 && continuation b2
                           && continuation b3 && (65536 <=? c) && (c <? 1114112)
                        then (55296 + (c - 65536) / 1024)
                               :: (56320 + (c - 65536) mod 1024) :: code_units s4
                        else 65533 :: code_units s1
                    end
              end
        end
  end.

(** The other way: the string that holds a JavaScript string, given by its
    code units. *)
Definition of_octet (b : Z) : ascii := ascii_of_N (Z.to_N b).

Definition three_bytes (u : Z) (rest : string) : string :=
  String (of_octet (224 + u / 4096))
    (String (of_octet (128 + (u / 64) mod 64))
       (String (of_octet (128 + u mod 64)) rest)).

Definition four_bytes (c : Z) (rest : string) : string :=
  String (of_octet (240 + c / 262144))
    (String (of_octet (128 + (c / 4096) mod 64))
       (String (of_octet (128 + (c / 64) mod 64))
          (String (of_octet (128 + c mod 64)) rest))).

Definition high_surrogate (u : Z) : bool := (55296 <=? u) && (u <? 56320).
Definition low_surrogate (u : Z) : bool := (56320 <=? u) && (u <? 57344).

Fixpoint utf8 (units : list Z) : string :=
  match units with
  | [] => EmptyString
  | u :: rest =>
      if u <? 128 then String (of_octet u) (utf8 rest)
      else if u <? 2048 then
        String (of_octet (192 + u / 64)) (String (of_octet (128 + u mod 64)) (utf8 rest))
      else
        match rest with
        | v :: rest' =>
            if high_surrogate u && low_surrogate v
            then four_bytes (65536 + (u - 55296) * 1024 + (v - 56320)) (utf8 rest')
            else three_bytes u (utf8 rest)
        | [] => three_bytes u (utf8 rest)
        end
  end.

(** The string holds a JavaScript string: it is the UTF-8 of its own code
    units. *)
Definition text (s : string) : bool := bool_decide (utf8 (code_units s) = s).

(** Comparing two strings code unit by code unit; a proper prefix is the
    smaller. *)
Fixpoint compare_code_units (u v : list Z) : Z :=
  match u, v with
  | [], [] => 0
  | [], _ :: _ => -1
  | _ :: _, [] => 1
  | x :: u, y :: v =>
      if x <? y then -1 else if y <? x then 1 else compare_code_units u v
  end.

(** The engine's order on keys: every number is below every string, numbers
    go by their value and strings by their code units. *)
Definition compare_keys (a b : Key) : Z :=
  match a, b with
  | KNum m, KNum n => match Z.compare m n with Lt => -1 | Eq => 0 | Gt => 1 end
  | KNum _, KStr _ => -1
  | KStr _, KNum _ => 1
  | KStr s, KStr t => compare_code_units (code_units s) (code_units t)
  end.

(** Evaluating a key path on a record: the value of the property of that
    name when it is a valid key, nothing otherwise. *)
Definition evaluate_key_path (path : string) (r : SavedSnapshot) : option Key :=
  if decide (path = "id") then Some (KStr (id r))
  else if decide (path = "originalUrl") then Some (KStr (originalUrl r))
  else if decide (path = "timestamp") then Some (KStr (timestamp r))
  else if decide (path = "savedAt") then Some (KNum (savedAt r))
  else if decide (path = "title") then Some (KStr (title r))
  else if decide (path = "status") then Some (KStr (status r))
  else None.

Record Index := {
  ix_name : string;
  ix_keyPath : string;
  ix_unique : bool
}.

Record ObjectStore := {
  os_keyPath : string;
  os_indexes : list Index;
  os_records : gmap Key SavedSnapshot
}.

Record Database := {
  db_version : Z;
  objectStores : gmap string ObjectStore
}.

(** An [IDBDatabase]: one connection to the database of that name.  Every
    successful open makes a new one. *)
Record IDBDatabase := {
  conn_id : nat;
  conn_name : string
}.

#[global] Instance IDBDatabase_eq_dec : EqDecision IDBDatabase.
Proof. solve_decision. Defined.

Inductive Mode := ReadOnly | ReadWrite.

Record IDBTransaction := {
  tx_db : IDBDatabase;
  tx_scope : list string;
  tx_mode : Mode
}.

Record IDBObjectStore := {
  st_tx : IDBTransaction;
  st_name : string
}.

(** What reaches the engine, in order. *)
Inductive Event :=
| EvOpen (name : string) (version : Z)
| EvUpgradeNeeded (name : string) (oldVersion newVersion : Z)
| EvTransaction (conn : nat) (scope : list string) (mode : Mode)
| EvPut (store : string) (value : SavedSnapshot)
| EvGet (store : string) (key : Key)
| EvGetAll (store : string)
| EvDelete (store : string) (key : Key).

(** The engine: its databases, the number of connections made so far, the
    failures it is going to have (one entry per request, [Some e] when that
    request fires [onerror] with [e]; past the end every request is
    served), and the trace of what it was asked. *)
Record World := {
  databases : gmap string Database;
  connections : nat;
  faults : list (option Thrown);
  trace : list Event
}.

Definition log (e : Event) (w : World) : World :=
  {| databases := databases w; connections := connections w;
     faults := faults w; trace := trace w ++ [e] |}.

Definition next_fault (w : World) : option Thrown :=
  match faults w with [] => None | f :: _ => f end.

Definition consume_fault (w : World) : World :=
  {| databases := databases w; connections := connections w;
     faults := tail (faults w); trace := trace w |}.

Definition set_database (name : string) (d : Database) (w : World) : World :=
  {| databases := <[name := d]> (databases w); connections := connections w;
     faults := faults w; trace := trace w |}.

Definition connect (name : string) (w : World) : IDBDatabase * World :=
  ({| conn_id := connections w; conn_name := name |},
   {| databases := databases w; connections := S (connections w);
      faults := faults w; trace := trace w |}).

(** *** Schema changes, inside a version change *)

(** [db.createObjectStore(name, { keyPath })]; throws when the store is
    there already. *)
Definition createObjectStore (name keyPath : string) (d : Database) : option Database :=
  match objectStores d !! name with
  | Some _ => None
  | None =>
      Some {| db_version := db_version d;
              objectStores := <[name := {| os_keyPath := keyPath; os_indexes := [];
                                           os_records := ∅ |}]> (objectStores d) |}
  end.

(** [store.createIndex(name, keyPath, { unique })]; throws when the store is
    missing or has an index of that name. *)
Definition createIndex (store name keyPath : string) (unique : bool) (d : Database)
  : option Database :=
  match objectStores d !! store with
  | None => None
  | Some s =>
      if existsb (fun i => bool_decide (ix_name i = name)) (os_indexes s) then None
      else
        Some {| db_version := db_version d;
                objectStores :=
                  <[store := {| os_keyPath := os_keyPath s;
                                os_indexes := os_indexes s ++
                                  [{| ix_name := name; ix_keyPath := keyPath;
                                      ix_unique := unique |}];
                                os_records := os_records s |}]> (objectStores d) |}
  end.

(** *** [indexedDB.open(name, version)] *)

(** The engine serves an open request in one piece: a database that is
    missing counts as version 0; when the stored version is below the
    requested one the [onupgradeneeded] handler runs on it and the version is
    raised; a stored version above the requested one is a [VersionError]; a
    handler that throws aborts the change and leaves the database as it
    was.  On success the result is a new connection. *)
Definition serve_open (name : string) (version : Z)
           (onupgradeneeded : Database -> option Database)
           (w : World) : Outcome IDBDatabase * World :=
  match next_fault w with
  | Some e => (Rejected e, consume_fault w)
  | None =>
      let w := consume_fault w in
      let old := match databases w !! name with
                 | Some d => d
                 | None => {| db_version := 0; objectStores := ∅ |}
                 end in
      if db_version old <? version then
        let w := log (EvUpgradeNeeded name (db_version old) version) w in
        match onupgradeneeded {| db_version := version; objectStores := objectStores old |} with
        | None => (Rejected (DOMException "AbortError"), w)
        | Some d =>
            let '(c, w) := connect name (set_database name d w) in
            (Resolved c, w)
        end
      else if version <? db_version old then
        (Rejected (DOMException "VersionError"), w)
      else
        let '(c, w) := connect name w in
        (Resolved c, w)
  end.

(** The request as the caller hands it over. *)
Definition request_open (name : string) (version : Z) (w : World) : World :=
  log (EvOpen name version) w.

(** [indexedDB.open] awaited: the request is made and served. *)
Definition open (name : string) (version : Z)
           (onupgradeneeded : Database -> option Database)
           (w : World) : Outcome IDBDatabase * World :=
  serve_open name version onupgradeneeded (request_open name version w).

(** *** Transactions and requests *)

(** [db.transaction(scope, mode)]; throws [NotFoundError] when a store of
    the scope does not exist. *)
Definition transaction (db : IDBDatabase) (scope : list string) (mode : Mode)
           (w : World) : Outcome IDBTransaction * World :=
  let w := log (EvTransaction (conn_id db) scope mode) w in
  match databases w !! conn_name db with
  | None => (Rejected (DOMException "InvalidStateError"), w)
  | Some d =>
      if forallb (fun n => bool_decide (is_Some (objectStores d !! n))) scope
      then (Resolved {| tx_db := db; tx_scope := scope; tx_mode := mode |}, w)
      else (Rejected (DOMException "NotFoundError"), w)
  end.

(** [transaction.objectStore(name)]; throws [NotFoundError] outside the
    scope. *)
Definition objectStore (tx : IDBTransaction) (name : string) : Outcome IDBObjectStore :=
  if bool_decide (name ∈ tx_scope tx)
  then Resolved {| st_tx := tx; st_name := name |}
  else Rejected (DOMException "NotFoundError").

(** The store a handle stands for, in the engine. *)
Definition store_of (st : IDBObjectStore) (w : World) : option ObjectStore :=
  d ← databases w !! conn_name (tx_db (st_tx st));
  objectStores d !! st_name st.

Definition set_records (st : IDBObjectStore) (f : gmap Key SavedSnapshot -> gmap Key SavedSnapshot)
           (w : World) : World :=
  match databases w !! conn_name (tx_db (st_tx st)) with
  | None => w
  | Some d =>
      match objectStores d !! st_name st with
      | None => w
      | Some s =>
          set_database (conn_name (tx_db (st_tx st)))
            {| db_version := db_version d;
               objectStores :=
                 <[st_name st := {| os_keyPath := os_keyPath s;
                                    os_indexes := os_indexes s;
                                    os_records := f (os_records s) |}]> (objectStores d) |}
            w
      end
  end.

(** A request that reached the engine: it fires [onerror] when the engine
    has a failure due, and [onsuccess] with the result otherwise.  A failed
    request changes nothing. *)
Definition request {A} (serve : ObjectStore -> World -> A * World)
           (st : IDBObjectStore) (w : World) : Outcome A * World :=
  match store_of st w with
  | None => (Rejected (DOMException "InvalidStateError"), w)
  | Some s =>
      match next_fault w with
      | Some e => (Rejected e, consume_fault w)
      | None => let '(a, w) := serve s (consume_fault w) in (Resolved a, w)
      end
  end.

(** [store.put(value)]: the key is taken from the value along the store's
    key path; the record under that key, if any, is replaced.  Throws
    [ReadOnlyError] in a read-only transaction and [DataError] when the key
    path yields no key. *)
Definition put (st : IDBObjectStore) (value : SavedSnapshot) (w : World)
  : Outcome unit * World :=
  let w := log (EvPut (st_name st) value) w in
  match tx_mode (st_tx st) with
  | ReadOnly => (Rejected (DOMException "ReadOnlyError"), w)
  | ReadWrite =>
      match store_of st w with
      | None => (Rejected (DOMException "InvalidStateError"), w)
      | Some s =>
          match evaluate_key_path (os_keyPath s) value with
          | None => (Rejected (DOMException "DataError"), w)
          | Some k => request (fun _ w => (tt, set_records st (insert k value) w)) st w
          end
      end
  end.

(** [store.get(key)]: the record under the key, or [undefined]. *)
Definition get (st : IDBObjectStore) (key : Key) (w : World)
  : Outcome (option SavedSnapshot) * World :=
  request (fun s w => (os_records s !! key, w)) st (log (EvGet (st_name st) key) w).

(** The records of a store in ascending order of their keys. *)
Definition in_key_order (m : gmap Key SavedSnapshot) : list SavedSnapshot :=
  (sort (fun a b => compare_keys a.1 b.1) (map_to_list m)).*2.

(** [store.getAll()]: every record, in ascending order of the keys. *)
Definition getAll (st : IDBObjectStore) (w : World)
  : Outcome (list SavedSnapshot) * World :=
  request (fun s w => (in_key_order (os_records s), w))
          st (log (EvGetAll (st_name st)) w).

(** [store.delete(key)]: removes the record under the key, if any. *)
Definition delete (st : IDBObjectStore) (key : Key) (w : World)
  : Outcome unit * World :=
  let w := log (EvDelete (st_name st) key) w in
  match tx_mode (st_tx st) with
  | ReadOnly => (Rejected (DOMException "ReadOnlyError"), w)
  | ReadWrite => request (fun _ w => (tt, set_records st (base.delete key) w)) st w
  end.

End Idb.

(** ** [storageService.ts] *)

Module storageService.
Import Idb.

Definition DB_NAME : string := "OmniDashDB".
Definition DB_VERSION : Z := 1.
Definition STORE_NAME : string := "snapshots".

(** The [StorageService] instance together with the engine it talks to. *)
Record State := {
  db : option IDBDatabase;
  engine : World
}.

(** [this.db] *)
Definition this_db : Async State (option IDBDatabase) := fun s => (Resolved (db s), s).

(** [this.db = c] *)
Definition set_this_db (c : IDBDatabase) : Async State unit :=
  fun s => (Resolved tt, {| db := Some c; engine := engine s |}).

(** A call into the engine. *)
Definition idb {A} (f : World -> Outcome A * World) : Async State A :=
  fun s => let '(o, w) := f (engine s) in (o, {| db := db s; engine := w |}).

(** The [onupgradeneeded] handler of [init]. *)
Definition onupgradeneeded (d : Database) : option Database :=
  if bool_decide (is_Some (objectStores d !! STORE_NAME)) then Some d
  else
    d ← createObjectStore STORE_NAME "id" d;
    d ← createIndex STORE_NAME "timestamp" "timestamp" false d;
    createIndex STORE_NAME "originalUrl" "originalUrl" false d.

Definition init : Async State unit :=
  await h <~ this_db;
  match h with
  | Some _ => resolve tt
  | None =>
      await c <~ idb (open DB_NAME DB_VERSION onupgradeneeded);
      set_this_db c
  end.

Definition saveSnapshot (snapshot : SavedSnapshot) : Async State unit :=
  await _ <~ init;
  await h <~ this_db;
  match h with
  | None => reject (Reason "Database not initialized")
  | Some c =>
      await transaction <~ idb (transaction c [STORE_NAME] ReadWrite);
      await store <~ settle (objectStore transaction STORE_NAME);
      idb (put store snapshot)
  end.

Definition getAllSnapshots : Async State (list SavedSnapshot) :=
  await _ <~ init;
  await h <~ this_db;
  match h with
  | None => reject (Reason "Database not initialized")
  | Some c =>
      await transaction <~ idb (transaction c [STORE_NAME] ReadOnly);
      await store <~ settle (objectStore transaction STORE_NAME);
      await results <~ idb (getAll store);
      resolve (sort (fun a b => savedAt b - savedAt a) results)
  end.

Definition getSnapshot (id : string) : Async State (option SavedSnapshot) :=
  await _ <~ init;
  await h <~ this_db;
  match h with
  | None => reject (Reason "Database not initialized")
  | Some c =>
      await transaction <~ idb (transaction c [STORE_NAME] ReadOnly);
      await store <~ settle (objectStore transaction STORE_NAME);
      idb (get store (KStr id))
  end.

Definition deleteSnapshot (id : string) : Async State unit :=
  await _ <~ init;
  await h <~ this_db;
  match h with
  | None => reject (Reason "Database not initialized")
  | Some c =>
      await transaction <~ idb (transaction c [STORE_NAME] ReadWrite);
      await store <~ settle (objectStore transaction STORE_NAME);
      idb (delete store (KStr id))
  end.

(** *** What the properties below speak about *)

(** The snapshots collection of the application's database, if there. *)
Definition snapshots (w : World) : option ObjectStore :=
  d ← databases w !! DB_NAME; objectStores d !! STORE_NAME.

(** The stored records, by key. *)
Definition records (w : World) : gmap Key SavedSnapshot :=
  from_option os_records ∅ (snapshots w).

(** The collection as [init] creates it. *)
Definition schema : ObjectStore :=
  {| os_keyPath := "id";
     os_indexes :=
       [ {| ix_name := "timestamp"; ix_keyPath := "timestamp"; ix_unique := false |};
         {| ix_name := "originalUrl"; ix_keyPath := "originalUrl"; ix_unique := false |} ];
     os_records := ∅ |}.

(** The object-store handle the four methods work through. *)
Definition handle (c : IDBDatabase) (m : Mode) : IDBObjectStore :=
  {| st_tx := {| tx_db := c; tx_scope := [STORE_NAME]; tx_mode := m |};
     st_name := STORE_NAME |}.

(** The service holds a connection to the application's database, and the
    database has the snapshots collection keyed by [id]. *)
Definition ready (s : State) : bool :=
  match db s, snapshots (engine s) with
  | Some c, Some st =>
      bool_decide (conn_name c = DB_NAME) && bool_decide (os_keyPath st = "id")
  | _, _ => false
  end.

(** The engine has no failure due for its next request. *)
Definition responsive (w : World) : bool :=
  match next_fault w with None => true | Some _ => false end.

(** The store opens (or is open) on the snapshots collection, and the
    engine is going to serve the request that follows. *)
Definition serves (s : State) : bool :=
  match init s with
  | (Resolved _, s0) => ready s0 && responsive (engine s0)
  | (Rejected _, _) => false
  end.

(** Every record is stored under its own [id]. *)
Definition keyed_by_id (m : gmap Key SavedSnapshot) : Prop :=
  forall k r, m !! k = Some r -> k = KStr (id r).

(** The state a method leaves behind. *)
Definition after {A} (m : Async State A) (s : State) : State := (m s).2.

(** The comparator of [getAllSnapshots]. *)
Definition newest_first (a b : SavedSnapshot) : Z := savedAt b - savedAt a.

(** [b] was not saved after [a]. *)
Definition not_older (a b : SavedSnapshot) : Prop := savedAt b <= savedAt a.

(** A page that has just loaded: no handle yet. *)
Definition fresh (w : World) : State := {| db := None; engine := w |}.

(** A browser that has never seen the application. *)
Definition blank : World :=
  {| databases := ∅; connections := 0; faults := []; trace := [] |}.

(** [a] goes before [b] in a listing whose ties are ordered by [before]:
    it was saved later, or at the same time and it is [before] [b]. *)
Definition ranked (before : SavedSnapshot -> SavedSnapshot -> Prop)
           (a b : SavedSnapshot) : Prop :=
  savedAt b < savedAt a \/ (savedAt a = savedAt b /\ before a b).

(** [a] is not after [b] in the order of the keys, and [a] is before
    [b]. *)
Definition key_not_after (a b : SavedSnapshot) : Prop :=
  compare_keys (KStr (id a)) (KStr (id b)) <= 0.

Definition key_before (a b : SavedSnapshot) : Prop :=
  compare_keys (KStr (id a)) (KStr (id b)) < 0.

(** [a] is listed before [b]: it was saved later, or at the same time and
    its [id] is the smaller key. *)
Definition listed_before (a b : SavedSnapshot) : Prop := ranked key_before a b.

(** *** Any state the service can be in *)

(** [keyed_by_id], decided. *)
Definition keyed (m : gmap Key SavedSnapshot) : bool :=
  forallb (fun kr => bool_decide (kr.1 = KStr (id kr.2))) (map_to_list m).

(** The handle, when set, is a connection to the application's database,
    and the snapshots collection, when there, is keyed by [id] and holds
    every record under its own [id]. *)
Definition wellformed (s : State) : bool :=
  match db s with
  | Some c => bool_decide (conn_name c = DB_NAME)
  | None => true
  end &&
  match snapshots (engine s) with
  | Some st => bool_decide (os_keyPath st = "id") && keyed (os_records st)
  | None => true
  end.

(** The calls a page makes, one after the other. *)
Inductive Method :=
| Save (snapshot : SavedSnapshot)
| Delete (id : string)
| Get (id : string)
| ListAll.

Definition perform (s : State) (m : Method) : State :=
  match m with
  | Save snapshot => after (saveSnapshot snapshot) s
  | Delete id => after (deleteSnapshot id) s
  | Get id => after (getSnapshot id) s
  | ListAll => after getAllSnapshots s
  end.

Definition perform_all (ms : list Method) (s : State) : State := foldl perform s ms.

End storageService.

(** ** [init] under the event loop *)

(** Methods of the service run on one thread; a call of [init] that finds no
    handle hands an open request to the engine and returns its promise, and
    the request is served later, in its own task.  Other calls can come in
    between.  The engine serves open requests on one database in the order
    they were made. *)
Module EventLoop.
Import Idb storageService.

Record Loop := {
  service : State;
  (** callers whose open request waits at the engine, oldest first *)
  pending : list nat;
  (** callers whose promise has settled, with [this.db] as each of them
      finds it when it goes on *)
  settled : list (nat * Outcome IDBDatabase)
}.

Inductive Step :=
| Call (caller : nat)
| Serve.

(** The part of [init] that runs at the call. *)
Definition call (caller : nat) (l : Loop) : Loop :=
  match db (service l) with
  | Some c =>
      {| service := service l; pending := pending l;
         settled := settled l ++ [(caller, Resolved c)] |}
  | None =>
      {| service := {| db := None;
                       engine := request_open DB_NAME DB_VERSION (engine (service l)) |};
         pending := pending l ++ [caller];
         settled := settled l |}
  end.

(** The engine serves the oldest request and its handlers run:
    [onupgradeneeded] inside, then [onsuccess] (which sets [this.db]) or
    [onerror]. *)
Definition serve (l : Loop) : Loop :=
  match pending l with
  | [] => l
  | caller :: rest =>
      match serve_open DB_NAME DB_VERSION onupgradeneeded (engine (service l)) with
      | (Resolved c, w) =>
          {| service := {| db := Some c; engine := w |};
             pending := rest;
             settled := settled l ++ [(caller, Resolved c)] |}
      | (Rejected e, w) =>
          {| service := {| db := db (service l); engine := w |};
             pending := rest;
             settled := settled l ++ [(caller, Rejected e)] |}
      end
  end.

Definition step (l : Loop) (e : Step) : Loop :=
  match e with
  | Call caller => call caller l
  | Serve => serve l
  end.

Definition run (schedule : list Step) (l : Loop) : Loop :=
  foldl step l schedule.

Definition idle (s : State) : Loop :=
  {| service := s; pending := []; settled := [] |}.

Definition is_open (e : Event) : bool :=
  match e with EvOpen _ _ => true | _ => false end.

Definition is_upgrade (e : Event) : bool :=
  match e with EvUpgradeNeeded _ _ _ => true | _ => false end.

(** How many open requests the engine was handed. *)
Definition opens (w : World) : nat := List.length (List.filter is_open (trace w)).

(** How many times the creation logic ran. *)
Definition upgrades (w : World) : nat := List.length (List.filter is_upgrade (trace w)).

(** The version the application's database is stored at, 0 when there is
    none. *)
Definition stored_version (w : World) : Z :=
  match databases w !! DB_NAME with
  | Some d => db_version d
  | None => 0
  end.

(** The handles the callers that resolved go on with. *)
Definition handles (l : Loop) : list IDBDatabase :=
  omap (fun p => match p.2 with Resolved c => Some c | Rejected _ => None end) (settled l).

(** The handle a settled promise leaves its caller with. *)
Definition resolved (p : nat * Outcome IDBDatabase) : option IDBDatabase :=
  match p.2 with Resolved c => Some c | Rejected _ => None end.

(** The callers of a schedule whose call finds [this.db] unset, and so
    goes on to [indexedDB.open], in order. *)
Fixpoint senders (schedule : list Step) (l : Loop) : list nat :=
  match schedule with
  | [] => []
  | e :: rest =>
      match e, db (service l) with
      | Call caller, None => caller :: senders rest (step l e)
      | _, _ => senders rest (step l e)
      end
  end.

(** The open requests the engine answers along a schedule, each with its
    caller and what the caller's promise settles with, in order. *)
Fixpoint answered (schedule : list Step) (l : Loop) : list (nat * Outcome IDBDatabase) :=
  match schedule with
  | [] => []
  | e :: rest =>
      match e, pending l with
      | Serve, caller :: _ =>
          (caller, (serve_open DB_NAME DB_VERSION onupgradeneeded (engine (service l))).1)
            :: answered rest (step l e)
      | _, _ => answered rest (step l e)
      end
  end.

(** The connections to the application's database made from [w] to [w'],
    oldest first. *)
Definition made (w w' : World) : list IDBDatabase :=
  (fun i => {| conn_id := i; conn_name := DB_NAME |})
    <$> seq (connections w) (connections w' - connections w).

(** The snapshots collection once an open request has succeeded from [w]:
    the one the database had, or, when the database was stored below
    [DB_VERSION] without one, the one [init] creates. *)
Definition opened (w : World) : option ObjectStore :=
  match snapshots w with
  | Some st => Some st
  | None => if stored_version w <? DB_VERSION then Some schema else None
  end.

(** From [s] to [s'] the service kept its handle and the engine got no open
    request, ran no upgrade and made no connection. *)
Definition steady (s s' : State) : Prop :=
  db s' = db s /\
  opens (engine s') = opens (engine s) /\
  upgrades (engine s') = upgrades (engine s) /\
  connections (engine s') = connections (engine s).

(** The callers of a schedule, in order. *)
Definition callers (schedule : list Step) : list nat :=
  omap (fun e => match e with Call caller => Some caller | Serve => None end) schedule.

End EventLoop.

(** ** [waybackService.ts] *)

Module waybackService.

#[local] Set Warnings "-register-all".

(** What [JSON.parse] yields. *)
Inductive JSON :=
| JNull
| JBool (b : bool)
| JNum (n : Z)
| JStr (s : string)
| JArr (items : list JSON)
| JObj (fields : list (string * JSON)).

(** A JavaScript value as the service meets it: [None] is [undefined]. *)
Definition Value := option JSON.

(** The value in a condition. *)
Definition truthy (v : Value) : bool :=
  match v with
  | None | Some JNull => false
  | Some (JBool b) => b
  | Some (JNum n) => negb (n =? 0)
  | Some (JStr s) => negb (bool_decide (s = EmptyString))
  | Some (JArr _) | Some (JObj _) => true
  end.

Definition lookup_field (name : string) (fields : list (string * JSON)) : Value :=
  snd <$> find (fun f => bool_decide (f.1 = name)) fields.

(** [v.name] for a name no array or string has of its own: reading a
    property of [null] throws. *)
Definition property (v : JSON) (name : string) : Outcome Value :=
  match v with
  | JNull => Rejected (Error "TypeError")
  | JObj fields => Resolved (lookup_field name fields)
  | _ => Resolved None
  end.

Definition digit (i : nat) : string :=
  String (ascii_of_nat (48 + i)) EmptyString.

(** [row[i]], for [i] below ten. *)
Definition element (row : JSON) (i : nat) : Outcome Value :=
  match row with
  | JNull => Rejected (Error "TypeError")
  | JArr items => Resolved (items !! i)
  | JStr s => Resolved ((fun c => JStr (String c EmptyString)) <$> String.get i s)
  | JObj fields => Resolved (lookup_field (digit i) fields)
  | _ => Resolved None
  end.

(** [s.includes(part)] *)
Definition includes (s part : string) : bool :=
  match String.index 0 part s with Some _ => true | None => false end.

Record CDXRecord := {
  urlkey : Value;
  timestamp : Value;
  original : Value;
  mimetype : Value;
  statuscode : Value;
  digest : Value;
  length : Value
}.

Record SaveResult := {
  saved : bool;
  message : string
}.

Record Request := {
  req_url : string;
  req_method : string;
  req_headers : list (string * string);
  req_body : option string
}.

(** A response: [body] is [None] when reading it fails. *)
Record Response := {
  ok : bool;
  status : Z;
  content_type : option string;
  body : option string
}.

(** What the module imports and the built-ins it calls: the constants of
    [constants.ts], which is not among the sources, the mock data of
    [mockService.ts], taken as given (the properties hold whatever the two
    functions return), [JSON.parse] ([None] when it throws) and
    [encodeURIComponent] ([None] when it throws). *)
Class Imports := {
  WAYBACK_AVAILABLE : string;
  CDX : string;
  WAYBACK_SAVE : string;
  getMockAvailability : string -> JSON;
  getMockCDX : string -> list CDXRecord;
  JSON_parse : string -> option JSON;
  encodeURIComponent : string -> option string
}.

(** The browser: [localStorage] ([None] when access is denied), the
    network ([None] for a request that fails), and the requests sent. *)
Record Browser := {
  localStorage : option (gmap string string);
  network : Request -> option Response;
  sent : list Request
}.

Definition fetch (r : Request) : Async Browser Response :=
  fun b =>
    let b' := {| localStorage := localStorage b; network := network b;
                 sent := sent b ++ [r] |} in
    match network b r with
    | Some res => (Resolved res, b')
    | None => (Rejected (Error "TypeError: Failed to fetch"), b')
    end.

Definition GET (url : string) : Request :=
  {| req_url := url; req_method := "GET"; req_headers := []; req_body := None |}.

Definition text (res : Response) : Async Browser string :=
  match body res with
  | Some t => resolve t
  | None => throw (Error "TypeError")
  end.

Section Service.
Context `{Imports}.

(** [res.json()] *)
Definition json (res : Response) : Async Browser JSON :=
  match body res with
  | Some t =>
      match JSON_parse t with
      | Some j => resolve j
      | None => throw (Error "SyntaxError")
      end
  | None => throw (Error "TypeError")
  end.

(** [encodeURIComponent(url)], where it stands in a template. *)
Definition encoded (url : string) : Async Browser string :=
  match encodeURIComponent url with
  | Some u => resolve u
  | None => throw (Error "URIError")
  end.

Definition isDemoMode (b : Browser) : Value :=
  match localStorage b with
  | None => Some (JBool false)
  | Some items =>
      match items !! "omnidash_settings" with
      | Some settings =>
          if bool_decide (settings = EmptyString) then Some (JBool false)
          else
            match JSON_parse settings with
            | None => Some (JBool false)
            | Some v =>
                match property v "demoMode" with
                | Resolved d => d
                | Rejected _ => Some (JBool false)
                end
            end
      | None => Some (JBool false)
      end
  end.

Definition demo : Async Browser bool := fun b => (Resolved (truthy (isDemoMode b)), b).

Definition checkAvailability (url : string) : Async Browser JSON :=
  await d <~ demo;
  if d then resolve (getMockAvailability url)
  else
    tryCatch
      (await u <~ encoded url;
       await res <~ fetch (GET (WAYBACK_AVAILABLE ++ "?url=" ++ u));
       if negb (ok res)
       then throw (Error ("Availability check failed with status: " ++ pretty (status res)))
       else json res)
      (fun error => resolve (getMockAvailability url)).

Definition row_record (row : JSON) : Outcome CDXRecord :=
  match element row 0, element row 1, element row 2, element row 3,
        element row 4, element row 5, element row 6 with
  | Resolved a, Resolved b, Resolved c, Resolved d, Resolved e, Resolved f, Resolved g =>
      Resolved {| urlkey := a; timestamp := b; original := c; mimetype := d;
                  statuscode := e; digest := f; length := g |}
  | _, _, _, _, _, _, _ => Rejected (Error "TypeError")
  end.

(** [rows.map(row => ({ ... }))] *)
Fixpoint map_rows (rows : list JSON) : Outcome (list CDXRecord) :=
  match rows with
  | [] => Resolved []
  | row :: rest =>
      match row_record row with
      | Rejected e => Rejected e
      | Resolved r =>
          match map_rows rest with
          | Rejected e => Rejected e
          | Resolved rs => Resolved (r :: rs)
          end
      end
  end.

Definition is_json_type (contentType : option string) : bool :=
  match contentType with
  | None => false
  | Some t => negb (bool_decide (t = EmptyString)) && includes t "application/json"
  end.

Definition fetchCDX (url : string) : Async Browser (list CDXRecord) :=
  await d <~ demo;
  if d then resolve (getMockCDX url)
  else
    tryCatch
      (await u <~ encoded url;
       let api := CDX ++ "?url=" ++ u ++
         "&output=json&limit=100&fl=urlkey,timestamp,original,mimetype,statuscode,digest,length" in
       await res <~ fetch (GET api);
       if negb (ok res)
       then throw (Error ("CDX fetch failed with status: " ++ pretty (status res)))
       else
         if negb (is_json_type (content_type res))
         then
           await t <~ text res;
           if (String.length t =? 0)%nat then resolve []
           else throw (Error "Received non-JSON response from CDX API")
         else
           await j <~ json res;
           match j with
           | JArr (header :: row :: rows) => settle (map_rows (row :: rows))
           | _ => resolve []
           end)
      (fun error => resolve (getMockCDX url)).

Definition savePageNow (url accessKey secretKey : string) : Async Browser SaveResult :=
  await d <~ demo;
  if d
  then resolve {| saved := true;
                  message := "Mock Mode: URL successfully queued for capture." |}
  else
    if bool_decide (accessKey = EmptyString) || bool_decide (secretKey = EmptyString)
    then throw (Error "Missing Credentials. Please configure API keys in Settings.")
    else
      tryCatch
        (await u <~ encoded url;
         await res <~ fetch
           {| req_url := WAYBACK_SAVE;
              req_method := "POST";
              req_headers :=
                [ ("Accept", "application/json");
                  ("Authorization", "LOW " ++ accessKey ++ ":" ++ secretKey);
                  ("Content-Type", "application/x-www-form-urlencoded") ];
              req_body := Some ("url=" ++ u ++ "&capture_all=1") |};
         if ok res
         then resolve {| saved := true; message := "Capture request submitted." |}
         else
           await t <~ text res;
           if includes t "<!DOCTYPE html>"
           then throw (Error ("Capture failed (Status " ++ pretty (status res) ++
                  "). This may be due to rate limits or CORS issues when running client-side."))
           else throw (Error (if bool_decide (t = EmptyString)
                              then "Capture failed with status " ++ pretty (status res)
                              else t)))
        (fun e => throw e).

(** *** What the properties below speak about *)

(** Demo mode is off. *)
Definition live (b : Browser) : bool := negb (truthy (isDemoMode b)).

(** The answer to the request of [checkAvailability], if one comes:
    none when the url cannot be encoded or the network fails. *)
Definition availability_answer (url : string) (b : Browser) : option Response :=
  u ← encodeURIComponent url;
  network b (GET (WAYBACK_AVAILABLE ++ "?url=" ++ u)).

(** The same for [fetchCDX]. *)
Definition cdx_answer (url : string) (b : Browser) : option Response :=
  u ← encodeURIComponent url;
  network b (GET (CDX ++ "?url=" ++ u ++
    "&output=json&limit=100&fl=urlkey,timestamp,original,mimetype,statuscode,digest,length")).

(** The body is there and is JSON. *)
Definition parses (res : Response) : bool :=
  match body res with
  | Some t => if JSON_parse t is Some _ then true else false
  | None => false
  end.

(** The ways the availability check fails: no answer, a status that is
    not OK, a body that is not JSON. *)
Definition availability_fails (answer : option Response) : bool :=
  match answer with
  | None => true
  | Some res => negb (ok res) || negb (parses res)
  end.

(** The ways the history query fails: no answer, a status that is not
    OK, a body announced as JSON that is not, a body not announced as
    JSON that is not empty or cannot be read. *)
Definition cdx_fails (answer : option Response) : bool :=
  match answer with
  | None => true
  | Some res =>
      negb (ok res) ||
      (if is_json_type (content_type res) then negb (parses res)
       else match body res with
            | Some t => negb (String.length t =? 0)%nat
            | None => true
            end)
  end.

(** The browser after the requests [reqs] have gone out. *)
Definition sending (b : Browser) (reqs : list Request) : Browser :=
  {| localStorage := localStorage b; network := network b; sent := sent b ++ reqs |}.

(** The request of [savePageNow] for an encoded url. *)
Definition capture_request (u accessKey secretKey : string) : Request :=
  {| req_url := WAYBACK_SAVE;
     req_method := "POST";
     req_headers :=
       [ ("Accept", "application/json");
         ("Authorization", "LOW " ++ accessKey ++ ":" ++ secretKey);
         ("Content-Type", "application/x-www-form-urlencoded") ];
     req_body := Some ("url=" ++ u ++ "&capture_all=1") |}.

End Service.

(** The record [fetchCDX] makes of a row that is an array: the cells by
    position, [undefined] where the row is short. *)
Definition record_of_cells (cells : list JSON) : CDXRecord :=
  {| urlkey := cells !! 0%nat; timestamp := cells !! 1%nat; original := cells !! 2%nat;
     mimetype := cells !! 3%nat; statuscode := cells !! 4%nat; digest := cells !! 5%nat;
     length := cells !! 6%nat |}.

End waybackService.

(** ** The views, where they look at the credentials *)

Module views.

(** [Dashboard]: [const hasCreds = settings.accessKey && settings.secretKey]:
    the first operand when it is falsy, the second otherwise. *)
Definition hasCreds (accessKey secretKey : string) : string :=
  if bool_decide (accessKey = EmptyString) then accessKey else secretKey.

(** [Settings]: [const isValid = settings.accessKey.length > 0 &&
    settings.secretKey.length > 0]. *)
Definition isValid (accessKey secretKey : string) : bool :=
  (0 <? String.length accessKey)%nat && (0 <? String.length secretKey)%nat.

End views.

(** ** Sample data *)

Module Samples.
Import Idb storageService.

Definition snap (i url : string) (t : Z) : SavedSnapshot :=
  {| id := i; originalUrl := url; timestamp := "20240101000000"; savedAt := t;
     title := "Example"; status := "200" |}.

Definition a_x : SavedSnapshot := snap "a" "x" 1.
Definition a_y : SavedSnapshot := snap "a" "y" 2.
Definition b_z : SavedSnapshot := snap "b" "z" 3.
Definition c_w : SavedSnapshot := snap "c" "w" 3.

(** Two ids outside ASCII, in UTF-8: U+FF5E, one code unit, and U+1F600, a
    surrogate pair. *)
Definition tilde : string := String "239" (String "189" (String "158" EmptyString)).
Definition grin : string :=
  String "240" (String "159" (String "152" (String "128" EmptyString))).
Definition t_u : SavedSnapshot := snap tilde "u" 3.
Definition g_v : SavedSnapshot := snap grin "v" 3.

(** A store opened on a new browser and holding [a_x] and [b_z]. *)
Definition two_records : State :=
  after (saveSnapshot b_z) (after (saveSnapshot a_x) (fresh blank)).

(** An engine that fails the first request it gets. *)
Definition failing_once : World :=
  {| databases := ∅; connections := 0;
     faults := [Some (DOMException "UnknownError")]; trace := [] |}.

(** A browser left with the database at version 2, and one left with the
    database at version 1 without any collection. *)
Definition newer : World :=
  {| databases := {[ DB_NAME := {| db_version := 2; objectStores := ∅ |} ]};
     connections := 0; faults := []; trace := [] |}.

Definition bare : World :=
  {| databases := {[ DB_NAME := {| db_version := 1; objectStores := ∅ |} ]};
     connections := 0; faults := []; trace := [] |}.

(** The store with [a_x] and [b_z], and the engine about to fail a
    request. *)
Definition two_records_failing : State :=
  {| db := db two_records;
     engine := {| databases := databases (engine two_records);
                  connections := connections (engine two_records);
                  faults := [Some (DOMException "QuotaExceededError")];
                  trace := trace (engine two_records) |} |}.

Import waybackService.

Definition quote : string := String (ascii_of_nat 34) EmptyString.

(** The settings as the Settings view stores them, demo mode on. *)
Definition settings_demo : string :=
  "{" ++ quote ++ "demoMode" ++ quote ++ ":true}".

Definition settings_live : string :=
  "{" ++ quote ++ "demoMode" ++ quote ++ ":false}".

(** Constants and mock data to run the service with; [JSON.parse] on the
    two texts above. *)
Definition sample_imports : Imports :=
  {| WAYBACK_AVAILABLE := "https://archive.org/wayback/available";
     CDX := "https://web.archive.org/cdx/search/cdx";
     WAYBACK_SAVE := "https://web.archive.org/save";
     getMockAvailability := fun url => JObj [("url", JStr url)];
     getMockCDX := fun url =>
       [ {| urlkey := Some (JStr url); waybackService.timestamp := Some (JStr "20230101000000");
            original := Some (JStr url); mimetype := Some (JStr "text/html");
            statuscode := Some (JStr "200"); digest := Some (JStr "MOCK");
            length := Some (JStr "1024") |} ];
     JSON_parse := fun t =>
       if decide (t = settings_demo) then Some (JObj [("demoMode", JBool true)])
       else if decide (t = settings_live) then Some (JObj [("demoMode", JBool false)])
       else None;
     encodeURIComponent := fun url => Some url |}.

(** A browser in demo mode, and one that is not and has no network. *)
Definition demo_browser : Browser :=
  {| localStorage := Some {[ "omnidash_settings" := settings_demo ]};
     network := fun _ => None; sent := [] |}.

Definition offline_browser : Browser :=
  {| localStorage := Some {[ "omnidash_settings" := settings_live ]};
     network := fun _ => None; sent := [] |}.

(** Two bodies of the CDX endpoint, as texts, with what they parse to: a
    header and two rows, and the same with a [null] row. *)
Definition cdx_text : string := "[[urlkey,timestamp],[com,example)/,2020],[com,example)/,2021]]".
Definition cdx_null_text : string := "[[urlkey,timestamp],[com,example)/,2020],null]".

Definition cdx_cells : list (list JSON) :=
  [ [JStr "com,example)/"; JStr "2020"]; [JStr "com,example)/"; JStr "2021"] ].

Definition archive_imports : Imports :=
  {| WAYBACK_AVAILABLE := "https://archive.org/wayback/available";
     CDX := "https://web.archive.org/cdx/search/cdx";
     WAYBACK_SAVE := "https://web.archive.org/save";
     getMockAvailability := fun url => JObj [("url", JStr url)];
     getMockCDX := fun url => [record_of_cells [JStr url; JStr "20230101000000"]];
     JSON_parse := fun t =>
       if decide (t = settings_demo) then Some (JObj [("demoMode", JBool true)])
       else if decide (t = settings_live) then Some (JObj [("demoMode", JBool false)])
       else if decide (t = cdx_text)
            then Some (JArr (JArr [JStr "urlkey"; JStr "timestamp"] :: (JArr <$> cdx_cells)))
       else if decide (t = cdx_null_text)
            then Some (JArr [JArr [JStr "urlkey"; JStr "timestamp"];
                             JArr [JStr "com,example)/"; JStr "2020"]; JNull])
       else if decide (t = "{}") then Some (JObj [])
       else None;
     encodeURIComponent := fun url => Some url |}.

Definition ok_answer (content : option string) (text : string) : Response :=
  {| ok := true; waybackService.status := 200; content_type := content; body := Some text |}.

Definition answering (content : option string) (text : string) : Browser :=
  {| localStorage := Some {[ "omnidash_settings" := settings_live ]};
     network := fun _ => Some (ok_answer content text);
     sent := [] |}.

(** Browsers, demo mode off, whose network answers every request with an OK
    status: with the CDX rows, with the [null] row, with an empty body, with
    an empty JSON object. *)
Definition cdx_browser : Browser := answering (Some "application/json") cdx_text.
Definition cdx_null_browser : Browser := answering (Some "application/json") cdx_null_text.
Definition empty_browser : Browser := answering None EmptyString.
Definition accepting_browser : Browser := answering (Some "application/json") "{}".

End Samples.

(** * Properties *)

(** ** [Array.prototype.sort] *)

Module SortProps.

Section Any.
Context {A : Type} (cmp : A -> A -> Z).

Lemma insert_by_Permutation x l : insert_by cmp x l ≡ₚ x :: l.
Proof.
  induction l as [|y t IH]; cbn; [reflexivity|].
  destruct (cmp x y <=? 0); [reflexivity|].
  rewrite IH. apply perm_swap.
Qed.

Lemma sort_Permutation l : sort cmp l ≡ₚ l.
Proof.
  induction l as [|x t IH]; cbn; [reflexivity|].
  fold (sort cmp t). rewrite insert_by_Permutation, IH. reflexivity.
Qed.

(** What [insert_by] keeps of an order [R] that the comparator decides. *)
Section Ordered.
Variable R : A -> A -> Prop.
Hypothesis cmp_le : forall x y, cmp x y <= 0 -> R x y.
Hypothesis cmp_gt : forall x y, 0 < cmp x y -> R y x.

Lemma insert_by_HdRel z x l : R z x -> HdRel R z l -> HdRel R z (insert_by cmp x l).
Proof.
  intros Hzx Hz. destruct l as [|y t]; cbn; [constructor; exact Hzx|].
  destruct (cmp x y <=? 0); constructor; [exact Hzx|].
  inversion Hz; assumption.
Qed.

Lemma insert_by_Sorted x l : Sorted R l -> Sorted R (insert_by cmp x l).
Proof.
  induction 1 as [|y t Ht IH Hy]; cbn; [repeat constructor|].
  destruct (cmp x y <=? 0) eqn:Hc.
  - apply Z.leb_le in Hc. repeat constructor; auto.
  - apply Z.leb_gt in Hc. constructor; [exact IH|].
    apply insert_by_HdRel; auto.
Qed.

Lemma sort_Sorted l : Sorted R (sort cmp l).
Proof.
  induction l as [|x t IH]; cbn; [constructor|].
  apply insert_by_Sorted. exact IH.
Qed.
End Ordered.
End Any.

End SortProps.

(** ** The snapshot store *)

Module StorageProps.
Import Idb storageService Samples.

(** *** The engine under the service *)

Lemma onupgradeneeded_spec d :
  onupgradeneeded d =
    Some (if objectStores d !! STORE_NAME is Some _ then d
          else {| db_version := db_version d;
                  objectStores := <[STORE_NAME := schema]> (objectStores d) |}).
Proof.
  unfold onupgradeneeded.
  destruct (objectStores d !! STORE_NAME) as [st|] eqn:Hst.
  - rewrite bool_decide_eq_true_2 by eauto. reflexivity.
  - rewrite bool_decide_eq_false_2 by (intros [? ?]; congruence).
    unfold createObjectStore. rewrite Hst. cbn.
    unfold createIndex. cbn. rewrite lookup_insert_eq. cbn.
    rewrite lookup_insert_eq. cbn.
    rewrite !insert_insert_eq. reflexivity.
Qed.

Lemma serve_open_resolved w c w' :
  serve_open DB_NAME DB_VERSION onupgradeneeded w = (Resolved c, w') ->
  conn_name c = DB_NAME /\ records w' = records w.
Proof.
  unfold serve_open. rewrite onupgradeneeded_spec.
  destruct (next_fault _); [discriminate|].
  cbn [databases log consume_fault objectStores].
  set (old := match _ with Some d => d | None => _ end).
  destruct (db_version old <? DB_VERSION) eqn:Hv.
  - intros [= <- <-]. split; [reflexivity|].
    unfold records, snapshots. cbn [databases connect set_database fst snd].
    rewrite lookup_insert_eq. cbn [mbind option_bind].
    subst old.
    destruct (databases w !! DB_NAME) as [d|] eqn:Hd; cbn [mbind option_bind objectStores].
    + destruct (objectStores d !! STORE_NAME) as [st|] eqn:Hst; cbn [objectStores].
      * rewrite Hst. reflexivity.
      * rewrite lookup_insert_eq. reflexivity.
    + rewrite lookup_empty. cbn [objectStores]. rewrite lookup_insert_eq. reflexivity.
  - destruct (DB_VERSION <? db_version old); [discriminate|].
    intros [= <- <-]. split; reflexivity.
Qed.

Lemma store_of_handle c m w :
  conn_name c = DB_NAME -> store_of (handle c m) w = snapshots w.
Proof. intros Hc. unfold store_of, snapshots. cbn. rewrite Hc. reflexivity. Qed.

Lemma snapshots_log e w : snapshots (log e w) = snapshots w.
Proof. reflexivity. Qed.

Lemma snapshots_set_records c m f w st :
  conn_name c = DB_NAME -> snapshots w = Some st ->
  snapshots (set_records (handle c m) f w) =
    Some {| os_keyPath := os_keyPath st; os_indexes := os_indexes st;
            os_records := f (os_records st) |}.
Proof.
  intros Hc. unfold snapshots, set_records. cbn [handle st_tx tx_db st_name]. rewrite Hc.
  destruct (databases w !! DB_NAME) as [d|] eqn:Hd; cbn [mbind option_bind]; [|discriminate].
  intros Hst. rewrite Hst. cbn [set_database databases].
  rewrite lookup_insert_eq. cbn [mbind option_bind objectStores].
  rewrite lookup_insert_eq. reflexivity.
Qed.

(** Records put back as they were leave the databases as they were. *)
Lemma set_records_same c m f w st :
  conn_name c = DB_NAME -> snapshots w = Some st -> f (os_records st) = os_records st ->
  databases (set_records (handle c m) f w) = databases w.
Proof.
  intros Hc. unfold snapshots, set_records. cbn [handle st_tx tx_db st_name]. rewrite Hc.
  destruct (databases w !! DB_NAME) as [d|] eqn:Hd; cbn [mbind option_bind]; [|discriminate].
  intros Hst Hf. rewrite Hst, Hf. cbn [set_database databases].
  destruct st as [kp ix rs]. cbn [os_keyPath os_indexes os_records].
  rewrite (insert_id (objectStores d)) by exact Hst.
  destruct d as [v os]. cbn [db_version objectStores].
  apply insert_id. exact Hd.
Qed.

Lemma request_served A (serve : ObjectStore -> World -> A * World) c m w st :
  conn_name c = DB_NAME -> snapshots w = Some st -> next_fault w = None ->
  request serve (handle c m) w =
    (Resolved (serve st (consume_fault w)).1, (serve st (consume_fault w)).2).
Proof.
  intros Hc Hst Hf. unfold request. rewrite store_of_handle, Hst, Hf by assumption.
  destruct (serve st (consume_fault w)); reflexivity.
Qed.

(** *** [init] *)

Lemma init_opened s : is_Some (db s) -> init s = (Resolved tt, s).
Proof. intros [c Hc]. unfold init, andThen, this_db. rewrite Hc. reflexivity. Qed.

Lemma init_resolved s s0 :
  init s = (Resolved tt, s0) ->
  is_Some (db s0) /\ records (engine s0) = records (engine s).
Proof.
  unfold init, andThen, this_db. destruct (db s) as [c|] eqn:Hc.
  - intros [= <-]. rewrite Hc. eauto.
  - unfold idb, open.
    destruct (serve_open _ _ _ _) as [[c|e] w'] eqn:Ho; [|discriminate].
    unfold set_this_db. intros [= <-]. cbn. split; [eauto|].
    apply serve_open_resolved in Ho as [_ ->]. reflexivity.
Qed.

Lemma init_twice s s0 : init s = (Resolved tt, s0) -> init s0 = (Resolved tt, s0).
Proof. intros Hi. apply init_opened. eapply init_resolved; eauto. Qed.

(** Once [init] has resolved, a method goes on as from the opened state. *)
Lemma from_opened {A} (k : unit -> Async State A) s s0 :
  init s = (Resolved tt, s0) -> andThen init k s = andThen init k s0.
Proof. intros Hi. unfold andThen. rewrite (init_twice _ _ Hi), Hi. reflexivity. Qed.

Lemma ready_inv s :
  ready s = true ->
  exists c st,
    db s = Some c /\ conn_name c = DB_NAME /\
    snapshots (engine s) = Some st /\ os_keyPath st = "id".
Proof.
  unfold ready. destruct (db s) as [c|]; [|discriminate].
  destruct (snapshots (engine s)) as [st|]; [|discriminate].
  intros [H1 H2]%andb_prop. apply bool_decide_eq_true in H1, H2. eauto 10.
Qed.

Lemma serves_inv s :
  serves s = true ->
  exists s0, init s = (Resolved tt, s0) /\ ready s0 = true /\
             next_fault (engine s0) = None /\ records (engine s0) = records (engine s).
Proof.
  unfold serves. destruct (init s) as [[[]|e] s0] eqn:Hi; [|discriminate].
  intros [H1 H2]%andb_prop. exists s0. split; [reflexivity|]. split; [assumption|].
  split.
  - unfold responsive in H2. destruct (next_fault _); [discriminate|reflexivity].
  - eapply init_resolved; eauto.
Qed.

Lemma serves_ready s : ready s = true -> serves s = responsive (engine s).
Proof.
  intros Hr. unfold serves. rewrite init_opened.
  - rewrite Hr. reflexivity.
  - apply ready_inv in Hr as (c & ? & -> & _). eauto.
Qed.

(** The handle is reached: what a method does up to its request. *)
Lemma reach s c st m :
  db s = Some c -> conn_name c = DB_NAME -> snapshots (engine s) = Some st ->
  forall A (k : IDBObjectStore -> Async State A),
    (await _ <~ init;
     await h <~ this_db;
     match h with
     | None => reject (Reason "Database not initialized")
     | Some c =>
         await transaction <~ idb (transaction c [STORE_NAME] m);
         await store <~ settle (objectStore transaction STORE_NAME);
         k store
     end) s =
    k (handle c m)
      {| db := Some c; engine := log (EvTransaction (conn_id c) [STORE_NAME] m) (engine s) |}.
Proof.
  intros Hdb Hc Hst A k. unfold andThen at 1. rewrite init_opened by (rewrite Hdb; eauto).
  unfold andThen at 1. unfold this_db. rewrite Hdb.
  unfold andThen at 1. unfold idb, transaction. cbn [databases log]. rewrite Hc.
  unfold snapshots in Hst.
  destruct (databases (engine s) !! DB_NAME) as [d|]; [|discriminate].
  cbn [mbind option_bind] in Hst. cbn [forallb]. rewrite Hst.
  rewrite bool_decide_eq_true_2 by eauto. cbn [andb].
  unfold andThen at 1. unfold objectStore. cbn [tx_scope].
  rewrite bool_decide_eq_true_2 by apply list_elem_of_here.
  cbn [db]. rewrite Hdb. reflexivity.
Qed.

Lemma ready_set_records c m f w st :
  conn_name c = DB_NAME -> snapshots w = Some st -> os_keyPath st = "id" ->
  ready {| db := Some c; engine := set_records (handle c m) f w |} = true /\
  records (set_records (handle c m) f w) = f (records w).
Proof.
  intros Hc Hs Hk. unfold ready, records. cbn [db engine].
  rewrite (snapshots_set_records c m f w st Hc Hs), Hs. cbn [os_keyPath from_option os_records].
  rewrite !bool_decide_eq_true_2 by assumption. split; reflexivity.
Qed.

(** *** The four methods on a store that is ready *)

Lemma saveSnapshot_ready s r :
  ready s = true -> next_fault (engine s) = None ->
  (saveSnapshot r s).1 = Resolved tt /\
  ready (after (saveSnapshot r) s) = true /\
  records (engine (after (saveSnapshot r) s)) = <[KStr (id r) := r]> (records (engine s)).
Proof.
  intros (c & st & Hdb & Hc & Hs & Hk)%ready_inv Hf.
  unfold after, saveSnapshot. erewrite reach by eassumption.
  unfold idb, put. cbn [engine handle st_tx tx_mode st_name db].
  fold (handle c ReadWrite).
  rewrite store_of_handle, !snapshots_log, Hs, Hk by assumption.
  unfold evaluate_key_path. rewrite decide_True by reflexivity.
  erewrite request_served by (rewrite ?snapshots_log; eassumption).
  cbn [fst snd]. split; [reflexivity|].
  destruct (ready_set_records c ReadWrite (insert (KStr (id r)) r)
              (consume_fault (log (EvPut STORE_NAME r)
                 (log (EvTransaction (conn_id c) [STORE_NAME] ReadWrite) (engine s))))
              st Hc Hs Hk) as [Hr Hrec].
  split; [exact Hr|exact Hrec].
Qed.

Lemma deleteSnapshot_ready s i :
  ready s = true -> next_fault (engine s) = None ->
  (deleteSnapshot i s).1 = Resolved tt /\
  ready (after (deleteSnapshot i) s) = true /\
  records (engine (after (deleteSnapshot i) s)) = base.delete (KStr i) (records (engine s)) /\
  (records (engine s) !! KStr i = None ->
   databases (engine (after (deleteSnapshot i) s)) = databases (engine s)).
Proof.
  intros (c & st & Hdb & Hc & Hs & Hk)%ready_inv Hf.
  unfold after, deleteSnapshot. erewrite reach by eassumption.
  unfold idb, delete. cbn [engine handle st_tx tx_mode st_name db].
  fold (handle c ReadWrite).
  erewrite request_served by (rewrite ?snapshots_log; eassumption).
  cbn [fst snd]. split; [reflexivity|].
  destruct (ready_set_records c ReadWrite (base.delete (KStr i))
              (consume_fault (log (EvDelete STORE_NAME (KStr i))
                 (log (EvTransaction (conn_id c) [STORE_NAME] ReadWrite) (engine s))))
              st Hc Hs Hk) as [Hr Hrec].
  split; [exact Hr|]. split; [exact Hrec|].
  intros Hmiss. unfold records in Hmiss. rewrite Hs in Hmiss.
  exact (set_records_same c ReadWrite (base.delete (KStr i))
           (consume_fault (log (EvDelete STORE_NAME (KStr i))
              (log (EvTransaction (conn_id c) [STORE_NAME] ReadWrite) (engine s))))
           st Hc Hs (delete_id _ _ Hmiss)).
Qed.

Lemma getSnapshot_ready s i :
  ready s = true -> next_fault (engine s) = None ->
  (getSnapshot i s).1 = Resolved (records (engine s) !! KStr i).
Proof.
  intros (c & st & Hdb & Hc & Hs & Hk)%ready_inv Hf.
  unfold getSnapshot. erewrite reach by eassumption.
  unfold idb, get. cbn [engine handle st_name].
  fold (handle c ReadOnly).
  erewrite request_served by (rewrite ?snapshots_log; eassumption).
  cbn [fst snd]. unfold records. rewrite Hs. reflexivity.
Qed.

Lemma getAllSnapshots_ready s :
  ready s = true -> next_fault (engine s) = None ->
  (getAllSnapshots s).1 = Resolved (sort newest_first (in_key_order (records (engine s)))).
Proof.
  intros (c & st & Hdb & Hc & Hs & Hk)%ready_inv Hf.
  unfold getAllSnapshots. erewrite reach by eassumption.
  unfold andThen, idb, getAll. cbn [engine handle st_name].
  fold (handle c ReadOnly).
  erewrite request_served by (rewrite ?snapshots_log; eassumption).
  cbn [fst snd]. unfold records. rewrite Hs. reflexivity.
Qed.

(** *** The four methods on a store that serves *)

Lemma saveSnapshot_serves s r :
  serves s = true ->
  (saveSnapshot r s).1 = Resolved tt /\
  ready (after (saveSnapshot r) s) = true /\
  records (engine (after (saveSnapshot r) s)) = <[KStr (id r) := r]> (records (engine s)).
Proof.
  intros (s0 & Hi & Hr & Hf & Hrec)%serves_inv. unfold after.
  rewrite (from_opened _ s s0 Hi : saveSnapshot r s = saveSnapshot r s0), <- Hrec.
  apply saveSnapshot_ready; assumption.
Qed.

Lemma deleteSnapshot_serves s i :
  serves s = true ->
  (deleteSnapshot i s).1 = Resolved tt /\
  ready (after (deleteSnapshot i) s) = true /\
  records (engine (after (deleteSnapshot i) s)) = base.delete (KStr i) (records (engine s)) /\
  (records (engine s) !! KStr i = None ->
   databases (engine (after (deleteSnapshot i) s)) = databases (engine (after init s))).
Proof.
  intros (s0 & Hi & Hr & Hf & Hrec)%serves_inv. unfold after.
  rewrite (from_opened _ s s0 Hi : deleteSnapshot i s = deleteSnapshot i s0), <- Hrec, Hi.
  apply deleteSnapshot_ready; assumption.
Qed.

Lemma getSnapshot_serves s i :
  serves s = true -> (getSnapshot i s).1 = Resolved (records (engine s) !! KStr i).
Proof.
  intros (s0 & Hi & Hr & Hf & Hrec)%serves_inv.
  rewrite (from_opened _ s s0 Hi : getSnapshot i s = getSnapshot i s0), <- Hrec.
  apply getSnapshot_ready; assumption.
Qed.

Lemma getAllSnapshots_serves s :
  serves s = true ->
  (getAllSnapshots s).1 = Resolved (sort newest_first (in_key_order (records (engine s)))).
Proof.
  intros (s0 & Hi & Hr & Hf & Hrec)%serves_inv.
  rewrite (from_opened _ s s0 Hi : getAllSnapshots s = getAllSnapshots s0), <- Hrec.
  apply getAllSnapshots_ready; assumption.
Qed.

(** *** Listings *)

Lemma in_key_order_Permutation m : in_key_order m ≡ₚ (map_to_list m).*2.
Proof. unfold in_key_order. rewrite SortProps.sort_Permutation. reflexivity. Qed.

Lemma listing_Permutation m :
  sort newest_first (in_key_order m) ≡ₚ (map_to_list m).*2.
Proof. rewrite SortProps.sort_Permutation. apply in_key_order_Permutation. Qed.

Lemma listing_elem_of m r :
  r ∈ sort newest_first (in_key_order m) <-> exists k, m !! k = Some r.
Proof.
  rewrite listing_Permutation, list_elem_of_fmap. split.
  - intros ([k r'] & -> & Hin). exists k. apply elem_of_map_to_list. exact Hin.
  - intros [k Hk]. exists (k, r). split; [reflexivity|].
    apply elem_of_map_to_list. exact Hk.
Qed.

Lemma not_older_Transitive : Transitive not_older.
Proof. unfold not_older. intros a b c ? ?. lia. Qed.

Lemma listing_sorted l : StronglySorted not_older (sort newest_first l).
Proof.
  apply Sorted_StronglySorted; [exact not_older_Transitive|].
  apply SortProps.sort_Sorted; unfold newest_first, not_older; intros; lia.
Qed.

(** *** Which stores serve, and what a failure leaves *)

Lemma serves_opened s :
  ready s = true -> next_fault (engine s) = None -> serves s = true.
Proof.
  intros Hr Hf. rewrite (serves_ready _ Hr). unfold responsive. rewrite Hf. reflexivity.
Qed.

(** A first visit: no database yet, and an engine without failures. *)
Lemma serves_first_visit w :
  databases w !! DB_NAME = None -> faults w = [] -> serves (fresh w) = true.
Proof.
  intros Hd Hf.
  unfold serves, init, andThen, this_db, idb, open, serve_open, request_open.
  cbn [fresh db engine]. unfold next_fault at 1. cbn [faults log]. rewrite Hf.
  cbn [databases log consume_fault]. rewrite Hd. cbn [db_version objectStores].
  change (0 <? DB_VERSION) with true. cbn iota.
  rewrite onupgradeneeded_spec. cbn [objectStores]. rewrite lookup_empty.
  cbn [connect set_this_db set_database].
  unfold ready, snapshots, responsive, next_fault.
  cbn [db engine databases faults set_database log consume_fault conn_name].
  rewrite lookup_insert_eq. cbn [mbind option_bind objectStores].
  rewrite lookup_insert_eq. rewrite Hf. reflexivity.
Qed.

Lemma request_failed A (serve : ObjectStore -> World -> A * World) c m w st e :
  conn_name c = DB_NAME -> snapshots w = Some st -> next_fault w = Some e ->
  request serve (handle c m) w = (Rejected e, consume_fault w).
Proof.
  intros Hc Hst Hf. unfold request. rewrite store_of_handle, Hst, Hf by assumption.
  reflexivity.
Qed.

(** A save the engine fails rejects with the engine's error and stores
    nothing. *)
Lemma saveSnapshot_fault s r e :
  ready s = true -> next_fault (engine s) = Some e ->
  (saveSnapshot r s).1 = Rejected e /\
  records (engine (after (saveSnapshot r) s)) = records (engine s).
Proof.
  intros (c & st & Hdb & Hc & Hs & Hk)%ready_inv Hf.
  unfold after, saveSnapshot. erewrite reach by eassumption.
  unfold idb, put. cbn [engine handle st_tx tx_mode st_name db].
  fold (handle c ReadWrite).
  rewrite store_of_handle, !snapshots_log, Hs, Hk by assumption.
  unfold evaluate_key_path. rewrite decide_True by reflexivity.
  erewrite request_failed by (rewrite ?snapshots_log; eassumption).
  split; reflexivity.
Qed.

(** *** Records stay under their own [id] *)

Lemma keyed_by_id_empty : keyed_by_id ∅.
Proof. intros k r Hk. rewrite lookup_empty in Hk. discriminate. Qed.

Lemma keyed_by_id_insert m r :
  keyed_by_id m -> keyed_by_id (<[KStr (id r) := r]> m).
Proof.
  intros Hm k r'. destruct (decide (KStr (id r) = k)) as [<-|Hne].
  - rewrite lookup_insert_eq. intros [= <-]. reflexivity.
  - rewrite lookup_insert_ne by exact Hne. apply Hm.
Qed.

Lemma keyed_by_id_delete m k : keyed_by_id m -> keyed_by_id (base.delete k m).
Proof.
  intros Hm k' r. destruct (decide (k = k')) as [<-|Hne].
  - rewrite lookup_delete_eq. discriminate.
  - rewrite lookup_delete_ne by exact Hne. apply Hm.
Qed.

Lemma keyed_by_id_kept s :
  serves s = true -> keyed_by_id (records (engine s)) ->
  (forall r, keyed_by_id (records (engine (after (saveSnapshot r) s)))) /\
  (forall i, keyed_by_id (records (engine (after (deleteSnapshot i) s)))).
Proof.
  intros Hs Hk. split.
  - intros r. destruct (saveSnapshot_serves s r Hs) as (_ & _ & ->).
    apply keyed_by_id_insert, Hk.
  - intros i. destruct (deleteSnapshot_serves s i Hs) as (_ & _ & -> & _).
    apply keyed_by_id_delete, Hk.
Qed.

Lemma keyed_by_id_first_visit w :
  databases w !! DB_NAME = None -> keyed_by_id (records w).
Proof.
  intros Hd. unfold records, snapshots. rewrite Hd. apply keyed_by_id_empty.
Qed.

(** Of two records saved at the same time the one with the smaller key
    comes first, whichever was saved first. *)
Example listing_tie :
  (getAllSnapshots (after (saveSnapshot b_z) (after (saveSnapshot c_w)
     (after (saveSnapshot a_x) (fresh blank))))).1 = Resolved [b_z; c_w; a_x] /\
  (getAllSnapshots (after (saveSnapshot c_w) (after (saveSnapshot b_z)
     (after (saveSnapshot a_x) (fresh blank))))).1 = Resolved [b_z; c_w; a_x].
Proof. split; vm_compute; reflexivity. Qed.

(** The listing does not depend on the order of the saves. *)
Lemma listing_any_order s a b :
  id a <> id b ->
  serves s = true ->
  responsive (engine (after (saveSnapshot a) s)) = true ->
  responsive (engine (after (saveSnapshot b) s)) = true ->
  responsive (engine (after (saveSnapshot b) (after (saveSnapshot a) s))) = true ->
  responsive (engine (after (saveSnapshot a) (after (saveSnapshot b) s))) = true ->
  (getAllSnapshots (after (saveSnapshot b) (after (saveSnapshot a) s))).1 =
  (getAllSnapshots (after (saveSnapshot a) (after (saveSnapshot b) s))).1.
Proof.
  intros Hne Hs Ha Hb Hab Hba.
  destruct (saveSnapshot_serves s a Hs) as (_ & Hra & Hma).
  destruct (saveSnapshot_serves s b Hs) as (_ & Hrb & Hmb).
  rewrite <- (serves_ready _ Hra) in Ha. rewrite <- (serves_ready _ Hrb) in Hb.
  destruct (saveSnapshot_serves _ b Ha) as (_ & Hrab & Hmab).
  destruct (saveSnapshot_serves _ a Hb) as (_ & Hrba & Hmba).
  rewrite <- (serves_ready _ Hrab) in Hab. rewrite <- (serves_ready _ Hrba) in Hba.
  rewrite (getAllSnapshots_serves _ Hab), (getAllSnapshots_serves _ Hba).
  rewrite Hmab, Hmba, Hma, Hmb. rewrite insert_insert_ne by congruence. reflexivity.
Qed.

End StorageProps.

(** ** The store's contract *)

Module StoreContract.
Import Idb storageService Samples StorageProps.

(** C1. Saving a record and then looking its [id] up in the store that
    results returns that record: on a store that serves, and with an engine
    that does not fail the lookup, the save resolves and the lookup
    resolves with the record saved. *)
Theorem save_then_get (s : State) (r : SavedSnapshot) :
  serves s = true ->
  responsive (engine (after (saveSnapshot r) s)) = true ->
  (saveSnapshot r s).1 = Resolved tt /\
  (getSnapshot (id r) (after (saveSnapshot r) s)).1 = Resolved (Some r).
Proof.
  intros Hs Hf. destruct (saveSnapshot_serves s r Hs) as (Hres & Hr & Hrec).
  split; [exact Hres|].
  rewrite <- (serves_ready _ Hr) in Hf.
  rewrite (getSnapshot_serves _ _ Hf), Hrec. f_equal. apply lookup_insert_eq.
Qed.

Lemma save_then_get_witness :
  (saveSnapshot a_x (fresh blank)).1 = Resolved tt /\
  (getSnapshot "a" (after (saveSnapshot a_x) (fresh blank))).1 = Resolved (Some a_x).
Proof. apply (save_then_get (fresh blank) a_x); vm_compute; reflexivity. Defined.

(** C2. Two saves under one [id] leave the second record alone under that
    [id]: the lookup returns the second record whole, and the stored records
    are those the second save alone would have left. *)
Theorem save_replaces (s : State) (r1 r2 : SavedSnapshot) :
  id r1 = id r2 ->
  serves s = true ->
  responsive (engine (after (saveSnapshot r1) s)) = true ->
  responsive (engine (after (saveSnapshot r2) (after (saveSnapshot r1) s))) = true ->
  (getSnapshot (id r2) (after (saveSnapshot r2) (after (saveSnapshot r1) s))).1
    = Resolved (Some r2) /\
  records (engine (after (saveSnapshot r2) (after (saveSnapshot r1) s)))
    = records (engine (after (saveSnapshot r2) s)).
Proof.
  intros Hid Hs Hf1 Hf2.
  destruct (saveSnapshot_serves s r1 Hs) as (_ & Hr1 & Hrec1).
  rewrite <- (serves_ready _ Hr1) in Hf1.
  destruct (saveSnapshot_serves _ r2 Hf1) as (_ & Hr2 & Hrec2).
  rewrite <- (serves_ready _ Hr2) in Hf2.
  destruct (saveSnapshot_serves s r2 Hs) as (_ & _ & Hrec).
  split.
  - rewrite (getSnapshot_serves _ _ Hf2), Hrec2. f_equal. apply lookup_insert_eq.
  - rewrite Hrec2, Hrec1, Hrec, Hid. apply insert_insert_eq.
Qed.

Lemma save_replaces_witness :
  (getSnapshot "a" (after (saveSnapshot a_y) (after (saveSnapshot a_x) (fresh blank)))).1
    = Resolved (Some a_y) /\
  records (engine (after (saveSnapshot a_y) (after (saveSnapshot a_x) (fresh blank))))
    = records (engine (after (saveSnapshot a_y) (fresh blank))).
Proof.
  apply (save_replaces (fresh blank) a_x a_y); vm_compute; reflexivity.
Defined.

(** C3. The listing is the engine's full read, sorted in memory: it holds
    the stored records, each as often as it is stored, most recently saved
    first, and it is the empty list when nothing is stored. *)
Theorem list_all_sorted (s : State) :
  serves s = true ->
  exists l,
    (getAllSnapshots s).1 = Resolved l /\
    l = sort newest_first (in_key_order (records (engine s))) /\
    l ≡ₚ (map_to_list (records (engine s))).*2 /\
    StronglySorted not_older l /\
    (records (engine s) = ∅ -> l = []).
Proof.
  intros Hs. eexists. split; [apply getAllSnapshots_serves; exact Hs|].
  split; [reflexivity|]. split; [apply listing_Permutation|].
  split; [apply listing_sorted|].
  intros ->. unfold in_key_order. rewrite map_to_list_empty. reflexivity.
Qed.

Lemma list_all_sorted_witness :
  exists l,
    (getAllSnapshots two_records).1 = Resolved l /\
    l = sort newest_first (in_key_order (records (engine two_records))) /\
    l ≡ₚ (map_to_list (records (engine two_records))).*2 /\
    StronglySorted not_older l /\
    (records (engine two_records) = ∅ -> l = []).
Proof. apply (list_all_sorted two_records). vm_compute. reflexivity. Defined.

(** C4. Looking up an [id] that is not stored resolves with [undefined]. *)
Theorem get_missing (s : State) (i : string) :
  serves s = true ->
  records (engine s) !! KStr i = None ->
  (getSnapshot i s).1 = Resolved None.
Proof. intros Hs Hmiss. rewrite (getSnapshot_serves _ _ Hs), Hmiss. reflexivity. Qed.

Lemma get_missing_witness : (getSnapshot "nonexistent" two_records).1 = Resolved None.
Proof. apply (get_missing two_records "nonexistent"); vm_compute; reflexivity. Defined.

(** C5. Deleting an [id] that is not stored resolves, and leaves the
    databases as opening the store leaves them: the stored records are
    unchanged. *)
Theorem delete_missing (s : State) (i : string) :
  serves s = true ->
  records (engine s) !! KStr i = None ->
  (deleteSnapshot i s).1 = Resolved tt /\
  databases (engine (after (deleteSnapshot i) s)) = databases (engine (after init s)) /\
  records (engine (after (deleteSnapshot i) s)) = records (engine s).
Proof.
  intros Hs Hmiss. destruct (deleteSnapshot_serves s i Hs) as (Hres & _ & Hrec & Hsame).
  split; [exact Hres|]. split; [exact (Hsame Hmiss)|].
  rewrite Hrec. apply delete_id. exact Hmiss.
Qed.

Lemma delete_missing_witness :
  (deleteSnapshot "nonexistent" two_records).1 = Resolved tt /\
  databases (engine (after (deleteSnapshot "nonexistent") two_records))
    = databases (engine (after init two_records)) /\
  records (engine (after (deleteSnapshot "nonexistent") two_records))
    = records (engine two_records).
Proof. apply (delete_missing two_records "nonexistent"); vm_compute; reflexivity. Defined.

(** C6. Deleting the [id] of a stored record [a] removes that record and
    nothing else: the records stored afterwards are the former ones less the
    one under that [id]; the lookup of the [id] gives [undefined]; every
    other lookup gives what it gave; the former listing is the new one with
    [a] added, so that a record [b] stored under another [id] is still
    listed; and [a] is no longer listed, the records being stored under
    their own [id]. *)
Theorem delete_removes_one (s : State) (a b : SavedSnapshot) :
  serves s = true ->
  records (engine s) !! KStr (id a) = Some a ->
  records (engine s) !! KStr (id b) = Some b ->
  id a <> id b ->
  responsive (engine (after (deleteSnapshot (id a)) s)) = true ->
  (deleteSnapshot (id a) s).1 = Resolved tt /\
  records (engine (after (deleteSnapshot (id a)) s))
    = base.delete (KStr (id a)) (records (engine s)) /\
  (getSnapshot (id a) (after (deleteSnapshot (id a)) s)).1 = Resolved None /\
  (forall i, i <> id a ->
     (getSnapshot i (after (deleteSnapshot (id a)) s)).1 = (getSnapshot i s).1) /\
  exists before rest,
    (getAllSnapshots s).1 = Resolved before /\
    (getAllSnapshots (after (deleteSnapshot (id a)) s)).1 = Resolved rest /\
    before ≡ₚ a :: rest /\
    b ∈ rest /\
    (keyed_by_id (records (engine s)) -> a ∉ rest).
Proof.
  intros Hs Ha Hb Hne Hf.
  destruct (deleteSnapshot_serves s (id a) Hs) as (Hres & Hr & Hrec & _).
  rewrite <- (serves_ready _ Hr) in Hf.
  split; [exact Hres|]. split; [exact Hrec|]. split; [|split].
  - rewrite (getSnapshot_serves _ _ Hf), Hrec, lookup_delete_eq. reflexivity.
  - intros i Hi. rewrite (getSnapshot_serves _ _ Hf), (getSnapshot_serves _ _ Hs), Hrec.
    rewrite lookup_delete_ne by congruence. reflexivity.
  - eexists _, _. split; [apply getAllSnapshots_serves; exact Hs|].
    split; [apply getAllSnapshots_serves; exact Hf|]. rewrite Hrec.
    split; [|split].
    + rewrite !listing_Permutation.
      rewrite <- (map_to_list_delete _ _ _ Ha). reflexivity.
    + apply listing_elem_of. exists (KStr (id b)).
      rewrite lookup_delete_ne by congruence. exact Hb.
    + intros Hk [k Hin]%listing_elem_of.
      destruct (decide (KStr (id a) = k)) as [<-|Hk'].
      * rewrite lookup_delete_eq in Hin. discriminate.
      * rewrite lookup_delete_ne in Hin by exact Hk'. apply Hk in Hin. congruence.
Qed.

Lemma delete_removes_one_witness :
  (deleteSnapshot "a" two_records).1 = Resolved tt /\
  (getSnapshot "a" (after (deleteSnapshot "a") two_records)).1 = Resolved None /\
  (getAllSnapshots (after (deleteSnapshot "a") two_records)).1 = Resolved [b_z].
Proof.
  destruct (delete_removes_one two_records a_x b_z) as (Hd & _ & Hg & _);
    [vm_compute; reflexivity .. | discriminate | vm_compute; reflexivity |].
  split; [exact Hd|]. split; [exact Hg|]. vm_compute. reflexivity.
Defined.

End StoreContract.

(** ** Opening the store *)

Module OpenContract.
Import Idb storageService Samples StorageProps EventLoop.

Lemma upgrades_log e w :
  upgrades (log e w) = (upgrades w + if is_upgrade e then 1 else 0)%nat.
Proof.
  unfold upgrades. cbn [log trace]. rewrite List.filter_app, List.length_app. cbn.
  destruct (is_upgrade e); reflexivity.
Qed.

(** Serving an open request either leaves the count of upgrades and the
    stored version alone, or finds the version below [DB_VERSION], runs the
    one upgrade and stores [DB_VERSION]. *)
Lemma serve_open_upgrades w :
  let w' := (serve_open DB_NAME DB_VERSION onupgradeneeded w).2 in
  (upgrades w' = upgrades w /\ stored_version w' = stored_version w) \/
  (stored_version w < DB_VERSION /\ upgrades w' = S (upgrades w) /\
   stored_version w' = DB_VERSION).
Proof.
  unfold serve_open. rewrite onupgradeneeded_spec.
  destruct (next_fault w); [left; split; reflexivity|].
  cbn [databases log consume_fault objectStores]. fold (stored_version w).
  assert (Hv : db_version match databases w !! DB_NAME with
                          | Some d => d
                          | None => {| db_version := 0; objectStores := ∅ |}
                          end = stored_version w).
  { unfold stored_version. destruct (databases w !! DB_NAME); reflexivity. }
  rewrite Hv.
  destruct (stored_version w <? DB_VERSION) eqn:Hlt.
  - right. apply Z.ltb_lt in Hlt. split; [exact Hlt|].
    cbn [connect set_database snd]. split.
    + unfold upgrades. cbn [trace log consume_fault set_database]. rewrite List.filter_app, List.length_app.
      cbn. lia.
    + unfold stored_version. cbn [databases set_database]. rewrite lookup_insert_eq.
      destruct (objectStores _ !! STORE_NAME); reflexivity.
  - left. destruct (DB_VERSION <? stored_version w); split; reflexivity.
Qed.

(** The awaited [init] is a call followed by the serving of its request. *)
Lemma init_in_loop s caller :
  service (run [Call caller; Serve] (idle s)) = after init s.
Proof.
  destruct s as [[c|] w]; unfold after, init, andThen, this_db, idb, open;
    cbn [run foldl step idle call serve service db pending settled app engine fst snd];
    [reflexivity|].
  destruct (serve_open _ _ _ _) as [[c|e] w']; reflexivity.
Qed.

(** C7. [init] is idempotent.  With the handle set it resolves at once and
    leaves the service and the engine, trace included, as they are.  After
    an [init] that resolved, a second one resolves the same way, and the
    stored records are those from before the first.  And an [init] without
    a handle (a page loaded again) on a database stored at [DB_VERSION]
    hands the engine one open request and no more: the databases stay as
    they are and no upgrade runs. *)
Theorem init_idempotent (s : State) :
  (forall c, db s = Some c -> init s = (Resolved tt, s)) /\
  (forall s1, init s = (Resolved tt, s1) ->
     init s1 = (Resolved tt, s1) /\ records (engine s1) = records (engine s)) /\
  (db s = None -> stored_version (engine s) = DB_VERSION ->
     databases (engine (after init s)) = databases (engine s) /\
     trace (engine (after init s)) = (trace (engine s) ++ [EvOpen DB_NAME DB_VERSION])%list).
Proof.
  split; [|split].
  - intros c Hc. apply init_opened. eauto.
  - intros s1 Hi. split; [exact (init_twice _ _ Hi)|]. eapply init_resolved; exact Hi.
  - intros Hdb Hv. unfold after, init, andThen, this_db, idb, open. rewrite Hdb.
    unfold serve_open, request_open.
    destruct (next_fault _); [split; reflexivity|].
    cbn [databases log consume_fault].
    replace (db_version _) with DB_VERSION.
    + rewrite Z.ltb_irrefl. split; reflexivity.
    + rewrite <- Hv. unfold stored_version.
      destruct (databases (engine s) !! DB_NAME); reflexivity.
Qed.

Lemma init_idempotent_witness :
  init (after init (fresh blank)) = (Resolved tt, after init (fresh blank)) /\
  upgrades (engine (after init (fresh (engine (after init (fresh blank))))))
    = upgrades (engine (after init (fresh blank))).
Proof.
  split.
  - apply (proj1 (init_idempotent (after init (fresh blank)))
             {| conn_id := 0; conn_name := DB_NAME |}).
    reflexivity.
  - destruct (init_idempotent (fresh (engine (after init (fresh blank)))))
      as (_ & _ & Hreload).
    destruct Hreload as [_ Ht]; [reflexivity|vm_compute; reflexivity|].
    unfold upgrades. rewrite Ht. vm_compute. reflexivity.
Defined.

(** C8 as stated fails: two first calls are two open requests at the
    engine, and the two callers go on with different handles. *)
Lemma init_not_single_flight :
  let l := run [Call 0%nat; Call 1%nat; Serve; Serve] (idle (fresh blank)) in
  opens (engine (service l)) = 2%nat /\
  exists h0 h1,
    settled l = [(0%nat, Resolved h0); (1%nat, Resolved h1)] /\ h0 <> h1.
Proof.
  split; [vm_compute; reflexivity|].
  exists {| conn_id := 0; conn_name := DB_NAME |}, {| conn_id := 1; conn_name := DB_NAME |}.
  split; [vm_compute; reflexivity|discriminate].
Qed.

End OpenContract.

(** ** The Wayback calls *)

Module WaybackContract.
Import waybackService Samples.

Section Service.
Context `{Imports}.


(** C10. [checkAvailability] and [fetchCDX] always resolve.  When demo
    mode is off and the call fails (no answer, a status that is not OK, a
    body that is not the JSON expected) the value is the mock data for
    the url. *)
Theorem lookups_never_reject (url : string) (b : Browser) :
  (exists v, (checkAvailability url b).1 = Resolved v) /\
  (exists l, (fetchCDX url b).1 = Resolved l) /\
  (live b = true -> availability_fails (availability_answer url b) = true ->
     (checkAvailability url b).1 = Resolved (getMockAvailability url)) /\
  (live b = true -> cdx_fails (cdx_answer url b) = true ->
     (fetchCDX url b).1 = Resolved (getMockCDX url)).
Proof.
  unfold live, availability_answer, cdx_answer, availability_fails, cdx_fails, parses.
  unfold checkAvailability, fetchCDX, andThen, tryCatch, demo, encoded, fetch, json, text,
    resolve, throw, settle.
  destruct (truthy (isDemoMode b)); cbn [negb fst].
  { repeat split; eauto; discriminate. }
  destruct (encodeURIComponent url) as [u|]; cbn [mbind option_bind fst].
  2: { repeat split; eauto. }
  split; [|split; [|split]].
  - destruct (network b _) as [res|]; cbn [fst]; [|eauto].
    destruct (ok res); cbn [negb]; [|eauto].
    destruct (body res) as [t|]; [|eauto].
    destruct (JSON_parse t); eauto.
  - destruct (network b _) as [res|]; cbn [fst]; [|eauto].
    destruct (ok res); cbn [negb]; [|eauto].
    destruct (is_json_type (content_type res)); cbn [negb].
    + destruct (body res) as [t|]; [|eauto].
      destruct (JSON_parse t) as [j|]; [|eauto].
      destruct j as [| | | |[|header [|row rows]]|]; eauto.
      destruct (map_rows (row :: rows)); eauto.
    + destruct (body res) as [t|]; [|eauto].
      destruct (String.length t =? 0)%nat; eauto.
  - intros _. destruct (network b _) as [res|]; cbn [fst]; [|reflexivity].
    destruct (ok res); cbn [negb orb]; [|reflexivity].
    destruct (body res) as [t|]; [|reflexivity].
    destruct (JSON_parse t); [discriminate|reflexivity].
  - intros _. destruct (network b _) as [res|]; cbn [fst]; [|reflexivity].
    destruct (ok res); cbn [negb orb]; [|reflexivity].
    destruct (is_json_type (content_type res)); cbn [negb].
    + destruct (body res) as [t|]; [|reflexivity].
      destruct (JSON_parse t); [discriminate|reflexivity].
    + destruct (body res) as [t|]; [|reflexivity].
      destruct (String.length t =? 0)%nat; [discriminate|reflexivity].
Qed.

End Service.



Lemma lookups_never_reject_witness :
  (checkAvailability (H := sample_imports) "https://example.com" offline_browser).1 =
    Resolved (getMockAvailability (Imports := sample_imports) "https://example.com") /\
  (fetchCDX (H := sample_imports) "https://example.com" offline_browser).1 =
    Resolved (getMockCDX (Imports := sample_imports) "https://example.com").
Proof.
  destruct (lookups_never_reject (H := sample_imports) "https://example.com" offline_browser)
    as (_ & _ & Ha & Hc).
  split; [apply Ha|apply Hc]; vm_compute; reflexivity.
Defined.

End WaybackContract.


(** ** The store in any state *)

Module StoreStates.
Import Idb storageService Samples StorageProps EventLoop.

Lemma keyed_spec m : keyed m = true <-> keyed_by_id m.
Proof.
  unfold keyed, keyed_by_id. rewrite forallb_forall. split.
  - intros Hall k r Hk.
    specialize (Hall (k, r)). rewrite bool_decide_eq_true in Hall. apply Hall.
    apply list_elem_of_In, elem_of_map_to_list. exact Hk.
  - intros Hall [k r] Hin. apply bool_decide_eq_true. apply Hall.
    apply elem_of_map_to_list, list_elem_of_In. exact Hin.
Qed.

Lemma wellformed_spec s :
  wellformed s = true <->
  (forall c, db s = Some c -> conn_name c = DB_NAME) /\
  (forall st, snapshots (engine s) = Some st ->
     os_keyPath st = "id" /\ keyed_by_id (os_records st)).
Proof.
  unfold wellformed. rewrite andb_true_iff. split.
  - intros [Hc Hst]. split.
    + intros c Hdb. rewrite Hdb in Hc. apply bool_decide_eq_true in Hc. exact Hc.
    + intros st Hs. rewrite Hs in Hst. apply andb_true_iff in Hst as [Hk Hm].
      apply bool_decide_eq_true in Hk. apply keyed_spec in Hm. auto.
  - intros [Hc Hst]. split.
    + destruct (db s) as [c|]; [|reflexivity]. apply bool_decide_eq_true. auto.
    + destruct (snapshots (engine s)) as [st|]; [|reflexivity].
      destruct (Hst st eq_refl) as [Hk Hm]. apply andb_true_iff. split.
      * apply bool_decide_eq_true. exact Hk.
      * apply keyed_spec. exact Hm.
Qed.

Lemma wellformed_records s : wellformed s = true -> keyed_by_id (records (engine s)).
Proof.
  intros [_ Hst]%wellformed_spec. unfold records.
  destruct (snapshots (engine s)) as [st|]; [apply (Hst st eq_refl)|apply keyed_by_id_empty].
Qed.

(** *** Serving an open request, case by case *)

Lemma old_version w :
  db_version match databases w !! DB_NAME with
             | Some d => d
             | None => {| db_version := 0; objectStores := ∅ |}
             end = stored_version w.
Proof. unfold stored_version. destruct (databases w !! DB_NAME); reflexivity. Qed.

Lemma old_snapshots w :
  objectStores match databases w !! DB_NAME with
               | Some d => d
               | None => {| db_version := 0; objectStores := ∅ |}
               end !! STORE_NAME = snapshots w.
Proof.
  unfold snapshots. destruct (databases w !! DB_NAME); [reflexivity|].
  cbn. apply lookup_empty.
Qed.

(** A request the engine fails, or one on a database above [DB_VERSION],
    is rejected and leaves the databases alone. *)
Lemma serve_open_rejected w e w' :
  serve_open DB_NAME DB_VERSION onupgradeneeded w = (Rejected e, w') ->
  databases w' = databases w /\ connections w' = connections w /\
  upgrades w' = upgrades w /\
  (next_fault w = Some e \/
   (next_fault w = None /\ DB_VERSION < stored_version w /\
    e = DOMException "VersionError")).
Proof.
  unfold serve_open. rewrite onupgradeneeded_spec.
  destruct (next_fault w) as [e'|] eqn:Hf.
  - intros [= <- <-]. repeat split. left. reflexivity.
  - cbn [databases log consume_fault objectStores]. rewrite old_version.
    destruct (stored_version w <? DB_VERSION) eqn:Hlt; [discriminate|].
    destruct (DB_VERSION <? stored_version w) eqn:Hgt; [|discriminate].
    intros [= <- <-]. repeat split. right. apply Z.ltb_lt in Hgt. auto.
Qed.

(** A request that succeeds makes the next connection; the databases are
    as they were when the stored version is [DB_VERSION], and otherwise the
    application's database is stored at [DB_VERSION] with the snapshots
    collection: the one it had, or the new one. *)
Lemma serve_open_resolved_cases w c w' :
  serve_open DB_NAME DB_VERSION onupgradeneeded w = (Resolved c, w') ->
  c = {| conn_id := connections w; conn_name := DB_NAME |} /\
  next_fault w = None /\
  ((stored_version w = DB_VERSION /\ databases w' = databases w /\
    upgrades w' = upgrades w) \/
   (stored_version w < DB_VERSION /\
    databases w' =
      <[DB_NAME := {| db_version := DB_VERSION;
                      objectStores :=
                        match snapshots w with
                        | Some _ => objectStores match databases w !! DB_NAME with
                                                 | Some d => d
                                                 | None => {| db_version := 0;
                                                              objectStores := ∅ |}
                                                 end
                        | None => <[STORE_NAME := schema]>
                                    (objectStores match databases w !! DB_NAME with
                                                  | Some d => d
                                                  | None => {| db_version := 0;
                                                               objectStores := ∅ |}
                                                  end)
                        end |}]> (databases w) /\
    upgrades w' = S (upgrades w))).
Proof.
  unfold serve_open. rewrite onupgradeneeded_spec.
  destruct (next_fault w) as [e'|] eqn:Hf; [discriminate|].
  cbn [databases log consume_fault objectStores]. rewrite old_version, old_snapshots.
  destruct (stored_version w <? DB_VERSION) eqn:Hlt.
  - apply Z.ltb_lt in Hlt. cbn [connect set_database connections log consume_fault].
    intros [= <- <-]. split; [reflexivity|]. split; [reflexivity|]. right.
    split; [exact Hlt|]. cbn [databases]. split.
    + destruct (snapshots w); reflexivity.
    + unfold upgrades. cbn [trace]. rewrite List.filter_app, List.length_app. cbn. lia.
  - apply Z.ltb_ge in Hlt.
    destruct (DB_VERSION <? stored_version w) eqn:Hgt; [discriminate|].
    apply Z.ltb_ge in Hgt. cbn [connect connections consume_fault].
    intros [= <- <-]. split; [reflexivity|]. split; [reflexivity|]. left.
    split; [lia|]. split; reflexivity.
Qed.

Lemma snapshots_request_open w : snapshots (request_open DB_NAME DB_VERSION w) = snapshots w.
Proof. reflexivity. Qed.

Lemma serve_open_snapshots w c w' :
  serve_open DB_NAME DB_VERSION onupgradeneeded w = (Resolved c, w') ->
  snapshots w' = snapshots w \/ (snapshots w = None /\ snapshots w' = Some schema).
Proof.
  intros (_ & _ & [(_ & Hd & _)|(_ & Hd & _)])%serve_open_resolved_cases.
  - left. unfold snapshots. rewrite Hd. reflexivity.
  - unfold snapshots at 1 4. rewrite Hd, lookup_insert_eq. cbn [mbind option_bind objectStores].
    destruct (snapshots w) as [st|] eqn:Hs.
    + left. rewrite old_snapshots. exact Hs.
    + right. split; [reflexivity|]. apply lookup_insert_eq.
Qed.

(** *** [init] in any state *)

Lemma init_unopened s :
  db s = None ->
  init s =
    match serve_open DB_NAME DB_VERSION onupgradeneeded
            (request_open DB_NAME DB_VERSION (engine s)) with
    | (Resolved c, w) => (Resolved tt, {| db := Some c; engine := w |})
    | (Rejected e, w) => (Rejected e, {| db := None; engine := w |})
    end.
Proof.
  intros Hdb. unfold init, andThen, this_db, idb, open. rewrite Hdb.
  destruct (serve_open _ _ _ _) as [[c|e] w]; [reflexivity|]. rewrite Hdb. reflexivity.
Qed.

Lemma init_keeps s :
  wellformed s = true ->
  wellformed (after init s) = true /\ records (engine (after init s)) = records (engine s).
Proof.
  intros Hw. unfold after. destruct (db s) as [c|] eqn:Hdb.
  - rewrite init_opened by (rewrite Hdb; eauto). auto.
  - rewrite (init_unopened _ Hdb).
    apply wellformed_spec in Hw as [_ Hst].
    destruct (serve_open _ _ _ _) as [[c|e] w'] eqn:Ho; cbn [snd].
    + split.
      * apply wellformed_spec. cbn [db engine]. split.
        -- intros ? [= <-]. apply serve_open_resolved_cases in Ho as (-> & _). reflexivity.
        -- intros st Hs. cbn [engine] in Hs.
           destruct (serve_open_snapshots _ _ _ Ho) as [Heq|[_ Heq]]; rewrite Heq in Hs.
           ++ apply Hst. exact Hs.
           ++ injection Hs as <-. split; [reflexivity|apply keyed_by_id_empty].
      * unfold records. cbn [engine].
        destruct (serve_open_snapshots _ _ _ Ho) as [->|[Hn ->]].
        -- reflexivity.
        -- rewrite snapshots_request_open in Hn. rewrite Hn. reflexivity.
    + apply serve_open_rejected in Ho as (Hd & _).
      assert (Hs : snapshots w' = snapshots (engine s))
        by (unfold snapshots; rewrite Hd; reflexivity).
      split.
      * apply wellformed_spec. cbn [db engine]. split; [discriminate|].
        rewrite Hs. exact Hst.
      * unfold records. cbn [engine]. rewrite Hs. reflexivity.
Qed.

(** *** The four methods in any state *)

Lemma reach_missing s c m :
  db s = Some c -> conn_name c = DB_NAME -> snapshots (engine s) = None ->
  forall A (k : IDBObjectStore -> Async State A),
    (await _ <~ init;
     await h <~ this_db;
     match h with
     | None => reject (Reason "Database not initialized")
     | Some c =>
         await transaction <~ idb (transaction c [STORE_NAME] m);
         await store <~ settle (objectStore transaction STORE_NAME);
         k store
     end) s =
    (Rejected (DOMException (if databases (engine s) !! DB_NAME is Some _
                             then "NotFoundError" else "InvalidStateError")),
     {| db := Some c; engine := log (EvTransaction (conn_id c) [STORE_NAME] m) (engine s) |}).
Proof.
  intros Hdb Hc Hst A k. unfold andThen at 1. rewrite init_opened by (rewrite Hdb; eauto).
  unfold andThen at 1. unfold this_db. rewrite Hdb.
  unfold andThen at 1. unfold idb, transaction. cbn [databases log]. rewrite Hc.
  unfold snapshots in Hst.
  destruct (databases (engine s) !! DB_NAME) as [d|]; cbn [mbind option_bind] in Hst.
  - cbn [forallb]. rewrite Hst.
    rewrite bool_decide_eq_false_2 by (intros [? ?]; discriminate). cbn [andb].
    rewrite Hdb. reflexivity.
  - rewrite Hdb. reflexivity.
Qed.

(** A method that stops before its request, or is taken to the handle of
    an open store with the collection. *)
Lemma method_any {A} (m : Mode) (k : IDBObjectStore -> Async State A)
      (P : Outcome A -> State -> Prop) s :
  wellformed s = true ->
  (forall e s',
     wellformed s' = true -> records (engine s') = records (engine s) ->
     s' = after init s \/
     (exists c, db (after init s) = Some c /\
        s' = {| db := Some c;
                engine := log (EvTransaction (conn_id c) [STORE_NAME] m)
                              (engine (after init s)) |}) ->
     P (Rejected e) s') ->
  (forall c st,
     wellformed (after init s) = true -> db (after init s) = Some c ->
     conn_name c = DB_NAME ->
     snapshots (engine (after init s)) = Some st -> os_keyPath st = "id" ->
     records (engine (after init s)) = records (engine s) ->
     let s1 := {| db := Some c;
                  engine := log (EvTransaction (conn_id c) [STORE_NAME] m)
                                (engine (after init s)) |} in
     P (k (handle c m) s1).1 (k (handle c m) s1).2) ->
  let result :=
    (await _ <~ init;
     await h <~ this_db;
     match h with
     | None => reject (Reason "Database not initialized")
     | Some c =>
         await transaction <~ idb (transaction c [STORE_NAME] m);
         await store <~ settle (objectStore transaction STORE_NAME);
         k store
     end) s in
  P result.1 result.2.
Proof.
  intros Hw Hearly Hat result. subst result.
  destruct (init_keeps s Hw) as [Hw0 Hrec]. unfold after in *.
  destruct (init s) as [[[]|e] s0] eqn:Hi; cbn [snd] in *.
  - rewrite (from_opened _ s s0 Hi).
    destruct (init_resolved _ _ Hi) as [[c Hdb] _].
    assert (Hc : conn_name c = DB_NAME) by (apply wellformed_spec in Hw0 as [Hc _]; auto).
    destruct (snapshots (engine s0)) as [st|] eqn:Hs.
    + erewrite reach by eassumption.
      apply (Hat c st); try assumption; try reflexivity.
      apply wellformed_spec in Hw0 as [_ Hst]. apply (Hst st Hs).
    + erewrite reach_missing by eassumption. cbn [fst snd].
      apply Hearly; [|exact Hrec|right; eauto].
      apply wellformed_spec. cbn [db engine]. split; [intros ? [= <-]; exact Hc|].
      rewrite snapshots_log, Hs. discriminate.
  - match goal with |- P (?M s).1 _ =>
      assert (Heq : M s = (Rejected e, s0)) by (unfold andThen at 1; rewrite Hi; reflexivity)
    end.
    rewrite Heq. cbn [fst snd].
    apply Hearly; [exact Hw0|exact Hrec|left; reflexivity].
Qed.

Lemma request_cases A (serve : ObjectStore -> World -> A * World) c m w st :
  conn_name c = DB_NAME -> snapshots w = Some st ->
  request serve (handle c m) w =
    match next_fault w with
    | Some e => (Rejected e, consume_fault w)
    | None => (Resolved (serve st (consume_fault w)).1, (serve st (consume_fault w)).2)
    end.
Proof.
  intros Hc Hst. destruct (next_fault w) as [e|] eqn:Hf.
  - eapply request_failed; eassumption.
  - eapply request_served; eassumption.
Qed.

(** A state with the same handle and the same collection is as well
    formed. *)
Lemma wellformed_same s s' :
  db s' = db s -> snapshots (engine s') = snapshots (engine s) ->
  wellformed s' = wellformed s.
Proof. intros Hdb Hs. unfold wellformed. rewrite Hdb, Hs. reflexivity. Qed.

Lemma wellformed_set_records c m f w st :
  conn_name c = DB_NAME -> snapshots w = Some st -> os_keyPath st = "id" ->
  keyed_by_id (f (os_records st)) ->
  wellformed {| db := Some c; engine := set_records (handle c m) f w |} = true.
Proof.
  intros Hc Hs Hk Hf. apply wellformed_spec. cbn [db engine]. split.
  - intros ? [= <-]. exact Hc.
  - intros st'. rewrite (snapshots_set_records c m f w st Hc Hs). intros [= <-].
    cbn [os_keyPath os_records]. auto.
Qed.

Lemma records_set_records c m f w st :
  conn_name c = DB_NAME -> snapshots w = Some st ->
  records (set_records (handle c m) f w) = f (records w).
Proof.
  intros Hc Hs. unfold records.
  rewrite (snapshots_set_records c m f w st Hc Hs), Hs. reflexivity.
Qed.

Lemma snapshots_keyed s st :
  wellformed s = true -> snapshots (engine s) = Some st -> keyed_by_id (os_records st).
Proof. intros [_ Hst]%wellformed_spec Hs. apply (Hst st Hs). Qed.

(** [saveSnapshot] in any state. *)
Lemma saveSnapshot_any s r :
  wellformed s = true ->
  wellformed (after (saveSnapshot r) s) = true /\
  records (engine (after (saveSnapshot r) s)) =
    match (saveSnapshot r s).1 with
    | Resolved _ => <[KStr (id r) := r]> (records (engine s))
    | Rejected _ => records (engine s)
    end.
Proof.
  intros Hw. unfold after, saveSnapshot.
  apply (method_any ReadWrite (fun store => idb (put store r))
           (fun o s' => wellformed s' = true /\
                        records (engine s') =
                          match o with
                          | Resolved _ => <[KStr (id r) := r]> (records (engine s))
                          | Rejected _ => records (engine s)
                          end)); [exact Hw|auto|].
  intros c st Hw0 Hdb Hc Hs Hk Hrec s1. subst s1.
  unfold idb, put. cbn [engine handle st_tx tx_mode st_name db]. fold (handle c ReadWrite).
  rewrite store_of_handle, !snapshots_log, Hs, Hk by assumption.
  unfold evaluate_key_path. rewrite decide_True by reflexivity.
  rewrite (request_cases _ _ c ReadWrite _ st Hc) by (rewrite !snapshots_log; exact Hs).
  destruct (next_fault _); cbn [fst snd].
  - split; [|exact Hrec].
    rewrite <- Hw0. apply wellformed_same; [symmetry; exact Hdb|reflexivity].
  - split.
    + apply (wellformed_set_records c ReadWrite _ _ st); try assumption.
      apply keyed_by_id_insert. eapply snapshots_keyed; eassumption.
    + cbn [engine]. rewrite (records_set_records c ReadWrite _ _ st Hc) by exact Hs.
      rewrite <- Hrec. reflexivity.
Qed.

(** [deleteSnapshot] in any state. *)
Lemma deleteSnapshot_any s i :
  wellformed s = true ->
  wellformed (after (deleteSnapshot i) s) = true /\
  records (engine (after (deleteSnapshot i) s)) =
    match (deleteSnapshot i s).1 with
    | Resolved _ => base.delete (KStr i) (records (engine s))
    | Rejected _ => records (engine s)
    end.
Proof.
  intros Hw. unfold after, deleteSnapshot.
  apply (method_any ReadWrite (fun store => idb (delete store (KStr i)))
           (fun o s' => wellformed s' = true /\
                        records (engine s') =
                          match o with
                          | Resolved _ => base.delete (KStr i) (records (engine s))
                          | Rejected _ => records (engine s)
                          end)); [exact Hw|auto|].
  intros c st Hw0 Hdb Hc Hs Hk Hrec s1. subst s1.
  unfold idb, delete. cbn [engine handle st_tx tx_mode st_name db]. fold (handle c ReadWrite).
  rewrite (request_cases _ _ c ReadWrite _ st Hc) by (rewrite !snapshots_log; exact Hs).
  destruct (next_fault _); cbn [fst snd].
  - split; [|exact Hrec].
    rewrite <- Hw0. apply wellformed_same; [symmetry; exact Hdb|reflexivity].
  - split.
    + apply (wellformed_set_records c ReadWrite _ _ st); try assumption.
      apply keyed_by_id_delete. eapply snapshots_keyed; eassumption.
    + cbn [engine]. rewrite (records_set_records c ReadWrite _ _ st Hc) by exact Hs.
      rewrite <- Hrec. reflexivity.
Qed.

(** [getSnapshot] in any state. *)
Lemma getSnapshot_any s i :
  wellformed s = true ->
  wellformed (after (getSnapshot i) s) = true /\
  records (engine (after (getSnapshot i) s)) = records (engine s) /\
  (forall v, (getSnapshot i s).1 = Resolved v -> v = records (engine s) !! KStr i).
Proof.
  intros Hw. unfold after, getSnapshot.
  apply (method_any ReadOnly (fun store => idb (get store (KStr i)))
           (fun o s' => wellformed s' = true /\
                        records (engine s') = records (engine s) /\
                        (forall v, o = Resolved v -> v = records (engine s) !! KStr i)));
    [exact Hw|intros; repeat split; try assumption; discriminate|].
  intros c st Hw0 Hdb Hc Hs Hk Hrec s1. subst s1.
  unfold idb, get. cbn [engine handle st_name db]. fold (handle c ReadOnly).
  rewrite (request_cases _ _ c ReadOnly _ st Hc) by (rewrite !snapshots_log; exact Hs).
  assert (Hw1 : forall w', snapshots w' = snapshots (engine (after init s)) ->
                           wellformed {| db := Some c; engine := w' |} = true).
  { intros w' Hw'. rewrite <- Hw0. apply wellformed_same; [symmetry; exact Hdb|exact Hw']. }
  destruct (next_fault _); cbn [fst snd].
  - split; [apply Hw1; reflexivity|]. split; [exact Hrec|discriminate].
  - split; [apply Hw1; reflexivity|]. split; [exact Hrec|].
    intros v [= <-]. rewrite <- Hrec. unfold records. rewrite Hs. reflexivity.
Qed.

(** [getAllSnapshots] in any state. *)
Lemma getAllSnapshots_any s :
  wellformed s = true ->
  wellformed (after getAllSnapshots s) = true /\
  records (engine (after getAllSnapshots s)) = records (engine s) /\
  (forall l, (getAllSnapshots s).1 = Resolved l ->
             l = sort newest_first (in_key_order (records (engine s)))).
Proof.
  intros Hw. unfold after, getAllSnapshots.
  apply (method_any ReadOnly
           (fun store => await results <~ idb (getAll store);
                         resolve (sort (fun a b => savedAt b - savedAt a) results))
           (fun o s' => wellformed s' = true /\
                        records (engine s') = records (engine s) /\
                        (forall l, o = Resolved l ->
                           l = sort newest_first (in_key_order (records (engine s))))));
    [exact Hw|intros; repeat split; try assumption; discriminate|].
  intros c st Hw0 Hdb Hc Hs Hk Hrec s1. subst s1.
  unfold andThen, idb, getAll. cbn [engine handle st_name db]. fold (handle c ReadOnly).
  rewrite (request_cases _ _ c ReadOnly _ st Hc) by (rewrite !snapshots_log; exact Hs).
  assert (Hw1 : forall w', snapshots w' = snapshots (engine (after init s)) ->
                           wellformed {| db := Some c; engine := w' |} = true).
  { intros w' Hw'. rewrite <- Hw0. apply wellformed_same; [symmetry; exact Hdb|exact Hw']. }
  destruct (next_fault _); cbn [fst snd].
  - split; [apply Hw1; reflexivity|]. split; [exact Hrec|discriminate].
  - split; [apply Hw1; reflexivity|]. split; [exact Hrec|].
    intros l [= <-]. rewrite <- Hrec. unfold records. rewrite Hs. reflexivity.
Qed.

(** *** Counting what reaches the engine *)

Lemma opens_log e w :
  opens (log e w) = (opens w + if is_open e then 1 else 0)%nat.
Proof.
  unfold opens. cbn [log trace]. rewrite List.filter_app, List.length_app. cbn.
  destruct (is_open e); reflexivity.
Qed.

Lemma trace_set_records st f w : trace (set_records st f w) = trace w.
Proof.
  unfold set_records. destruct (databases w !! _) as [d|]; [|reflexivity].
  destruct (objectStores d !! _); reflexivity.
Qed.

Lemma connections_set_records st f w : connections (set_records st f w) = connections w.
Proof.
  unfold set_records. destruct (databases w !! _) as [d|]; [|reflexivity].
  destruct (objectStores d !! _); reflexivity.
Qed.

Lemma opens_serve_open w :
  opens (serve_open DB_NAME DB_VERSION onupgradeneeded w).2 = opens w.
Proof.
  unfold serve_open. rewrite onupgradeneeded_spec.
  destruct (next_fault w); [reflexivity|].
  cbn [databases log consume_fault objectStores]. rewrite old_version.
  destruct (stored_version w <? DB_VERSION).
  - cbn [connect set_database snd]. unfold opens. cbn [trace log consume_fault set_database].
    rewrite List.filter_app, List.length_app. cbn. lia.
  - destruct (DB_VERSION <? stored_version w); reflexivity.
Qed.

(** A method whose [init] is rejected is rejected with the same error, and
    stops there. *)
Lemma method_init_rejected {A} (k : unit -> Async State A) s e :
  (init s).1 = Rejected e -> andThen init k s = (Rejected e, after init s).
Proof.
  unfold andThen, after. destruct (init s) as [[[]|e'] s0]; cbn [fst snd]; congruence.
Qed.

(** On a database stored at [DB_VERSION] or above [init] leaves the
    databases alone. *)
Lemma init_databases s :
  DB_VERSION <= stored_version (engine s) ->
  databases (engine (after init s)) = databases (engine s).
Proof.
  intros Hv. unfold after. destruct (db s) as [c|] eqn:Hdb.
  - rewrite init_opened by (rewrite Hdb; eauto). reflexivity.
  - rewrite (init_unopened _ Hdb).
    destruct (serve_open _ _ _ _) as [[c|e] w'] eqn:Ho; cbn [snd engine].
    + apply serve_open_resolved_cases in Ho as (_ & _ & [(_ & Hd & _)|(Hlt & _)]).
      * exact Hd.
      * change (stored_version (request_open DB_NAME DB_VERSION (engine s)))
          with (stored_version (engine s)) in Hlt. lia.
    + apply serve_open_rejected in Ho as (Hd & _). exact Hd.
Qed.

(** *** Requests leave the count of connections and of open requests alone *)

Lemma steady_refl s : steady s s.
Proof. repeat split. Qed.

Lemma steady_trans s1 s2 s3 : steady s1 s2 -> steady s2 s3 -> steady s1 s3.
Proof. unfold steady. intros (-> & -> & -> & ->) (-> & -> & -> & ->). repeat split. Qed.

Lemma steady_log s c e :
  db s = Some c -> is_open e = false -> is_upgrade e = false ->
  steady s {| db := Some c; engine := log e (engine s) |}.
Proof.
  intros Hdb Ho Hu. unfold steady. cbn [db engine].
  rewrite opens_log, OpenContract.upgrades_log, Ho, Hu, !Nat.add_0_r. auto.
Qed.

Lemma steady_request {A} (serve : ObjectStore -> World -> A * World) st d w :
  (forall s w, trace (serve s w).2 = trace w /\ connections (serve s w).2 = connections w) ->
  steady {| db := d; engine := w |} {| db := d; engine := (request serve st w).2 |}.
Proof.
  intros Hserve. unfold request. destruct (store_of st w) as [s|]; [|apply steady_refl].
  destruct (next_fault w); [repeat split|].
  destruct (Hserve s (consume_fault w)) as [Ht Hc].
  destruct (serve s (consume_fault w)) as [a w']. cbn [snd] in *.
  unfold steady, opens, upgrades. cbn [db engine]. rewrite Ht, Hc. repeat split.
Qed.

(** Once the handle is set a method goes to the engine with a transaction
    and at most its request. *)
Lemma method_steady {A} (m : Mode) (k : IDBObjectStore -> Async State A) s c :
  db s = Some c ->
  (forall st s1, db s1 = Some c -> steady s1 (k st s1).2) ->
  steady s
    ((await _ <~ init;
      await h <~ this_db;
      match h with
      | None => reject (Reason "Database not initialized")
      | Some c =>
          await transaction <~ idb (transaction c [STORE_NAME] m);
          await store <~ settle (objectStore transaction STORE_NAME);
          k store
      end) s).2.
Proof.
  intros Hdb Hk. unfold andThen at 1. rewrite init_opened by (rewrite Hdb; eauto).
  unfold andThen at 1. unfold this_db. rewrite Hdb.
  unfold andThen at 1. unfold idb, transaction. cbn [databases log]. rewrite Hdb.
  assert (Hlog : steady s {| db := Some c;
                             engine := log (EvTransaction (conn_id c) [STORE_NAME] m)
                                           (engine s) |})
    by (apply steady_log; [exact Hdb|reflexivity..]).
  destruct (databases (engine s) !! conn_name c) as [d|]; [|exact Hlog].
  destruct (forallb _ _); [|exact Hlog].
  unfold andThen at 1. unfold settle, objectStore. cbn [tx_scope].
  rewrite bool_decide_eq_true_2 by apply list_elem_of_here.
  eapply steady_trans; [exact Hlog|]. apply Hk. reflexivity.
Qed.

Lemma steady_idb_request {A} (serve : ObjectStore -> World -> A * World) st e s1 c :
  db s1 = Some c -> is_open e = false -> is_upgrade e = false ->
  (forall s w, trace (serve s w).2 = trace w /\ connections (serve s w).2 = connections w) ->
  steady s1 (idb (fun w => request serve st (log e w)) s1).2.
Proof.
  intros Hdb Ho Hu Hserve. unfold idb.
  eapply steady_trans; [apply (steady_log s1 c e Hdb Ho Hu)|].
  rewrite Hdb.
  pose proof (steady_request serve st (Some c) (log e (engine s1)) Hserve) as Hr.
  destruct (request serve st (log e (engine s1))) as [out w']. exact Hr.
Qed.

Lemma perform_steady s c m : db s = Some c -> steady s (perform s m).
Proof.
  intros Hdb. destruct m as [r|i|i|]; cbn [perform]; unfold after.
  - unfold saveSnapshot. apply (method_steady ReadWrite _ s c Hdb).
    intros st s1 Hdb1. unfold put. cbn [handle st_tx tx_mode].
    assert (Hlog : steady s1 {| db := Some c; engine := log (EvPut (st_name st) r) (engine s1) |})
      by (apply steady_log; [exact Hdb1|reflexivity..]).
    unfold idb. rewrite Hdb1. cbn zeta.
    destruct (tx_mode (st_tx st)); [exact Hlog|].
    destruct (store_of st _); [|exact Hlog].
    destruct (evaluate_key_path _ _) as [key|]; [|exact Hlog].
    eapply steady_trans; [exact Hlog|].
    pose proof (steady_request (fun _ w => (tt, set_records st (insert key r) w)) st (Some c)
                  (log (EvPut (st_name st) r) (engine s1))) as Hr.
    destruct (request _ st _) as [out w']. apply Hr.
    intros ? ?. cbn [snd]. split; [apply trace_set_records|apply connections_set_records].
  - unfold deleteSnapshot. apply (method_steady ReadWrite _ s c Hdb).
    intros st s1 Hdb1. unfold delete.
    assert (Hlog : steady s1 {| db := Some c;
                                engine := log (EvDelete (st_name st) (KStr i)) (engine s1) |})
      by (apply steady_log; [exact Hdb1|reflexivity..]).
    unfold idb. rewrite Hdb1. cbn zeta.
    destruct (tx_mode (st_tx st)); [exact Hlog|].
    eapply steady_trans; [exact Hlog|].
    pose proof (steady_request (fun _ w => (tt, set_records st (base.delete (KStr i)) w)) st
                  (Some c) (log (EvDelete (st_name st) (KStr i)) (engine s1))) as Hr.
    destruct (request _ st _) as [out w']. apply Hr.
    intros ? ?. cbn [snd]. split; [apply trace_set_records|apply connections_set_records].
  - unfold getSnapshot. apply (method_steady ReadOnly _ s c Hdb).
    intros st s1 Hdb1. unfold get.
    apply (steady_idb_request _ st (EvGet (st_name st) (KStr i)) s1 c Hdb1);
      [reflexivity..|]. intros; split; reflexivity.
  - unfold getAllSnapshots. apply (method_steady ReadOnly _ s c Hdb).
    intros st s1 Hdb1. unfold andThen, getAll.
    pose proof (steady_idb_request (fun s w => (in_key_order (os_records s), w)) st
                  (EvGetAll (st_name st)) s1 c Hdb1 eq_refl eq_refl) as Hr.
    destruct (idb _ s1) as [[l|e] s2]; apply Hr; intros; split; reflexivity.
Qed.

Lemma perform_all_steady ms s c : db s = Some c -> steady s (perform_all ms s).
Proof.
  revert s. induction ms as [|m ms IH]; intros s Hdb; [apply steady_refl|].
  cbn [perform_all foldl]. pose proof (perform_steady s c m Hdb) as Hstep.
  eapply steady_trans; [exact Hstep|]. apply IH.
  destruct Hstep as [-> _]. exact Hdb.
Qed.

Lemma serve_open_connections w c w' :
  serve_open DB_NAME DB_VERSION onupgradeneeded w = (Resolved c, w') ->
  connections w' = S (connections w) /\ (upgrades w' <= S (upgrades w))%nat.
Proof.
  intros Ho. pose proof (serve_open_resolved_cases _ _ _ Ho) as (_ & _ & Hcases).
  split; [|destruct Hcases as [(_ & _ & ->)|(_ & _ & ->)]; lia].
  revert Ho. unfold serve_open. rewrite onupgradeneeded_spec.
  destruct (next_fault w); [discriminate|].
  cbn [databases log consume_fault objectStores]. rewrite old_version.
  destruct (stored_version w <? DB_VERSION).
  - intros [= _ <-]. reflexivity.
  - destruct (DB_VERSION <? stored_version w); [discriminate|].
    intros [= _ <-]. reflexivity.
Qed.

(** A method called without a handle: either the open is rejected and the
    method stops there, or the method goes on from the opened state. *)
Lemma perform_unopened s m :
  db s = None ->
  (db (perform s m) = None /\
   connections (engine (perform s m)) = connections (engine s) /\
   upgrades (engine (perform s m)) = upgrades (engine s)) \/
  (is_Some (db (perform s m)) /\
   connections (engine (perform s m)) = S (connections (engine s)) /\
   (upgrades (engine (perform s m)) <= S (upgrades (engine s)))%nat).
Proof.
  intros Hdb.
  assert (Hinit := init_unopened s Hdb).
  destruct (serve_open _ _ _ _) as [[c|e] w'] eqn:Ho.
  - right.
    assert (Hvia : perform s m = perform {| db := Some c; engine := w' |} m).
    { destruct m; cbn [perform]; unfold after; f_equal; apply from_opened; exact Hinit. }
    rewrite Hvia.
    destruct (perform_steady {| db := Some c; engine := w' |} c m eq_refl)
      as (-> & _ & -> & ->).
    cbn [db engine]. apply serve_open_connections in Ho as [-> Hu].
    split; [eauto|]. split; [reflexivity|].
    change (upgrades (request_open DB_NAME DB_VERSION (engine s)))
      with (upgrades (log (EvOpen DB_NAME DB_VERSION) (engine s))) in Hu.
    rewrite OpenContract.upgrades_log in Hu. cbn in Hu. lia.
  - left.
    assert (Hvia : perform s m = {| db := None; engine := w' |}).
    { assert (Hrej : (init s).1 = Rejected e) by (rewrite Hinit; reflexivity).
      assert (Hafter : after init s = {| db := None; engine := w' |})
        by (unfold after; rewrite Hinit; reflexivity).
      rewrite <- Hafter.
      destruct m; cbn [perform]; unfold after at 1;
        [unfold saveSnapshot|unfold deleteSnapshot|unfold getSnapshot|unfold getAllSnapshots];
        rewrite (method_init_rejected _ s e Hrej); reflexivity. }
    rewrite Hvia. cbn [db engine].
    apply serve_open_rejected in Ho as (_ & -> & -> & _).
    split; [reflexivity|]. split; [reflexivity|].
    change (upgrades (request_open DB_NAME DB_VERSION (engine s)))
      with (upgrades (log (EvOpen DB_NAME DB_VERSION) (engine s))).
    rewrite OpenContract.upgrades_log. cbn. lia.
Qed.

End StoreStates.

(** ** Calls of [init] that overlap *)

Module Interleaving.
Import Idb storageService EventLoop Samples StorageProps StoreStates.

Lemma run_snoc schedule x l : run (schedule ++ [x]) l = step (run schedule l) x.
Proof. unfold run. rewrite foldl_snoc. reflexivity. Qed.

Lemma senders_snoc schedule x l :
  senders (schedule ++ [x]) l =
    (senders schedule l ++
     match x, db (service (run schedule l)) with
     | Call caller, None => [caller]
     | _, _ => []
     end)%list.
Proof.
  revert l. induction schedule as [|e rest IH]; intros l.
  - cbn. destruct x, (db (service l)); reflexivity.
  - cbn [app senders]. rewrite IH. change (run (e :: rest) l) with (run rest (step l e)).
    destruct e, (db (service l)); reflexivity.
Qed.

Lemma answered_snoc schedule x l :
  answered (schedule ++ [x]) l =
    (answered schedule l ++
     match x, pending (run schedule l) with
     | Serve, caller :: _ =>
         [(caller, (serve_open DB_NAME DB_VERSION onupgradeneeded
                      (engine (service (run schedule l)))).1)]
     | _, _ => []
     end)%list.
Proof.
  revert l. induction schedule as [|e rest IH]; intros l.
  - cbn. destruct x, (pending l); reflexivity.
  - cbn [app answered]. rewrite IH. change (run (e :: rest) l) with (run rest (step l e)).
    destruct e, (pending l); reflexivity.
Qed.

Lemma callers_snoc schedule x :
  callers (schedule ++ [x]) =
    (callers schedule ++ match x with Call caller => [caller] | Serve => [] end)%list.
Proof. unfold callers. rewrite omap_app. destruct x; reflexivity. Qed.

Lemma made_same w e e' : connections e' = connections e -> made w e' = made w e.
Proof. unfold made. intros ->. reflexivity. Qed.

Lemma made_next w e e' :
  (connections w <= connections e)%nat -> connections e' = S (connections e) ->
  made w e' = (made w e ++ [{| conn_id := connections e; conn_name := DB_NAME |}])%list.
Proof.
  unfold made. intros Hle ->.
  replace (S (connections e) - connections w)%nat
    with (S (connections e - connections w)) by lia.
  rewrite seq_S, fmap_app. cbn. repeat f_equal. lia.
Qed.

Lemma made_none w e : connections e = connections w -> made w e = [].
Proof. unfold made. intros ->. rewrite Nat.sub_diag. reflexivity. Qed.

Lemma opened_same w w' : databases w' = databases w -> opened w' = opened w.
Proof. unfold opened, snapshots, stored_version. intros ->. reflexivity. Qed.

Lemma opened_at_version w :
  stored_version w = DB_VERSION -> opened w = snapshots w.
Proof. unfold opened. intros ->. destruct (snapshots w); reflexivity. Qed.

(** An open request that succeeds: the next connection, the database at
    [DB_VERSION] with the collection of [opened], the records as they
    were. *)
Lemma serve_open_opened w c w' :
  serve_open DB_NAME DB_VERSION onupgradeneeded w = (Resolved c, w') ->
  c = {| conn_id := connections w; conn_name := DB_NAME |} /\
  connections w' = S (connections w) /\
  stored_version w' = DB_VERSION /\ snapshots w' = opened w /\
  ((stored_version w = DB_VERSION /\ upgrades w' = upgrades w) \/
   (stored_version w < DB_VERSION /\ upgrades w' = S (upgrades w))).
Proof.
  intros Ho. pose proof (serve_open_connections _ _ _ Ho) as [Hc _].
  pose proof (serve_open_resolved_cases _ _ _ Ho) as (-> & _ & Hcases).
  split; [reflexivity|]. split; [exact Hc|].
  destruct Hcases as [(Hv & Hd & Hu)|(Hlt & Hd & Hu)].
  - split; [unfold stored_version in *; rewrite Hd; exact Hv|].
    split; [|left; auto].
    rewrite (opened_at_version _ Hv). unfold snapshots. rewrite Hd. reflexivity.
  - split; [unfold stored_version; rewrite Hd, lookup_insert_eq; reflexivity|].
    split; [|right; auto].
    unfold opened. apply Z.ltb_lt in Hlt. rewrite Hlt.
    unfold snapshots at 1. rewrite Hd, lookup_insert_eq. cbn [mbind option_bind objectStores].
    destruct (snapshots w) as [st|] eqn:Hs.
    + rewrite old_snapshots. exact Hs.
    + apply lookup_insert_eq.
Qed.

Lemma handles_snoc l caller o :
  omap resolved (settled l ++ [(caller, o)])%list =
  (handles l ++ match o with Resolved c => [c] | Rejected _ => [] end)%list.
Proof. rewrite omap_app. unfold handles. destruct o; reflexivity. Qed.

Lemma last_elem_of {A} (l : list A) x : last l = Some x -> x ∈ l.
Proof. intros [l' ->]%last_Some. apply elem_of_app. right. constructor. Qed.

(** What every interleaving keeps, from a page without a handle. *)
Lemma interleaving schedule w :
  let l := run schedule (idle (fresh w)) in
  let e := engine (service l) in
  let sent := senders schedule (idle (fresh w)) in
  let done := answered schedule (idle (fresh w)) in
  opens e = (opens w + length sent)%nat /\
  sent = (done.*1 ++ pending l)%list /\
  (connections e = connections w -> sent = callers schedule) /\
  omap resolved done = made w e /\
  db (service l) = last (made w e) /\
  (upgrades e <= S (upgrades w))%nat /\
  (connections e = connections w ->
     databases e = databases w /\ upgrades e = upgrades w) /\
  ((connections w < connections e)%nat ->
     stored_version e = DB_VERSION /\ snapshots e = opened w) /\
  (connections w <= connections e)%nat /\
  (forall c, c ∈ handles l -> c ∈ made w e) /\
  (forall p, p ∈ done -> p ∈ settled l) /\
  records e = records w.
Proof.
  induction schedule as [|x schedule IH] using rev_ind; cbv zeta.
  { cbn [run foldl idle fresh service engine senders answered callers omap
         pending settled db length fmap list_fmap app handles].
    rewrite (made_none w w eq_refl). repeat split; try reflexivity; try lia.
    - intros c Hc. inversion Hc.
    - intros p Hp. inversion Hp. }
  cbv zeta in IH. rewrite run_snoc, senders_snoc, answered_snoc, callers_snoc.
  set (l := run schedule (idle (fresh w))) in *.
  set (sent := senders schedule (idle (fresh w))) in *.
  set (done := answered schedule (idle (fresh w))) in *.
  destruct IH as (J1 & J2 & J3 & J4 & J5 & J6 & J7 & J8 & J9 & J10 & J11 & J12).
  destruct x as [caller|]; cbn [step].
  - unfold call. destruct (db (service l)) as [c|] eqn:Hdb.
    + cbn [service pending settled]. rewrite !app_nil_r, Hdb.
      repeat split; try assumption.
      all: try (intros; first [apply J7|apply J8]; assumption).
      * intros Hc. rewrite (made_none _ _ Hc) in J5. discriminate.
      * unfold handles. cbn [settled]. change (omap _ ?x) with (omap resolved x).
        rewrite handles_snoc. intros c' [Hc'|Hc']%elem_of_app; [apply J10, Hc'|].
        apply list_elem_of_singleton in Hc' as ->. apply last_elem_of. symmetry. exact J5.
      * intros p Hp. apply elem_of_app. left. apply J11, Hp.
    + cbn [service pending settled engine db]. rewrite app_nil_r.
      set (e := engine (service l)) in *.
      assert (Hm : made w (request_open DB_NAME DB_VERSION e) = made w e)
        by (apply made_same; reflexivity).
      rewrite Hm. unfold request_open.
      rewrite opens_log, OpenContract.upgrades_log. cbn [is_open is_upgrade].
      change (connections (log _ e)) with (connections e).
      change (databases (log _ e)) with (databases e).
      change (stored_version (log _ e)) with (stored_version e).
      change (snapshots (log _ e)) with (snapshots e).
      change (records (log _ e)) with (records e).
      rewrite length_app. cbn [length].
      repeat split; try assumption; try lia.
      all: try (intros; first [apply J7|apply J8]; assumption).
      * rewrite J2, <- app_assoc. reflexivity.
      * intros Hc. rewrite (J3 Hc). reflexivity.
  - unfold serve. destruct (pending l) as [|caller rest] eqn:Hp.
    { rewrite !app_nil_r, Hp, app_nil_r. rewrite app_nil_r in J2.
      repeat split; try assumption.
      all: intros; first [apply J7|apply J8]; assumption. }
    set (e := engine (service l)) in *.
    pose proof (opens_serve_open e) as Hopens.
    destruct (serve_open DB_NAME DB_VERSION onupgradeneeded e) as [[c|err] e'] eqn:Ho;
      cbn [fst snd] in *; cbn [service pending settled engine db].
    + pose proof (serve_open_resolved _ _ _ Ho) as [_ Hrec].
      apply serve_open_opened in Ho as (-> & Hc & Hv & Hs & Hup).
      rewrite (made_next w e e' J9 Hc), omap_app, J4, last_snoc, Hopens.
      assert (Hnew : opened e = opened w).
      { destruct (decide (connections e = connections w)) as [Heq|Hne].
        - apply opened_same, J7, Heq.
        - destruct J8 as [Hv' Hs']; [lia|]. rewrite (opened_at_version _ Hv'). exact Hs'. }
      rewrite app_nil_r.
      repeat split; try assumption; try lia; try congruence.
      * rewrite J2, fmap_app, <- app_assoc. reflexivity.
      * unfold handles. cbn [settled]. change (omap _ ?x) with (omap resolved x).
        rewrite handles_snoc. intros c' [Hc'|Hc']%elem_of_app; apply elem_of_app;
          [left; apply J10, Hc'|right; exact Hc'].
      * intros p [Hin|Hin]%elem_of_app; apply elem_of_app;
          [left; apply J11, Hin|right; exact Hin].
    + apply serve_open_rejected in Ho as (Hd & Hc & Hu & _).
      rewrite (made_same w e e' Hc), omap_app, J4, !app_nil_r, Hopens, Hu, Hc, Hd.
      assert (Hsv : stored_version e' = stored_version e)
        by (unfold stored_version; rewrite Hd; reflexivity).
      assert (Hsn : snapshots e' = snapshots e)
        by (unfold snapshots; rewrite Hd; reflexivity).
      assert (Hrc : records e' = records e)
        by (unfold records; rewrite Hsn; reflexivity).
      rewrite Hsv, Hsn, Hrc.
      repeat split; try assumption; try lia.
      all: try (intros; first [apply J7|apply J8]; assumption).
      * rewrite J2, fmap_app, <- app_assoc. reflexivity.
      * unfold handles. cbn [settled]. change (omap _ ?x) with (omap resolved x).
        rewrite handles_snoc, app_nil_r. exact J10.
      * intros p [Hin|Hin]%elem_of_app; apply elem_of_app;
          [left; apply J11, Hin|right; exact Hin].
Qed.

Lemma made_NoDup w e : NoDup (made w e).
Proof.
  unfold made. apply NoDup_fmap_2; [intros i j [= ->]; reflexivity|apply NoDup_seq].
Qed.

Lemma made_some w e c : c ∈ made w e -> (connections w < connections e)%nat.
Proof.
  intros Hc. destruct (decide (connections w < connections e)%nat) as [|Hn]; [assumption|].
  unfold made in Hc. replace (connections e - connections w)%nat with 0%nat in Hc by lia.
  inversion Hc.
Qed.

(** C8, as the code has it.  [init] is not single-flight.  Over every
    interleaving of calls of [init] and answered open requests, from a page
    without a handle and whatever requests the engine fails:

    - every call that finds [this.db] unset hands the engine an open request
      of its own, and until a request has succeeded that is every call;
    - the engine answers the requests in the order they were made, and each
      answer settles its caller;
    - the requests that succeed each give their caller a new connection to
      the application's database, no two the same; the service keeps the
      one made last;
    - the creation logic runs at most once and the stored records stay as
      they were;
    - every caller that resolves holds one of these connections, and then
      the database is stored at [DB_VERSION] with the snapshots collection
      of [opened]: the one it had, or the one [init] creates when the
      database was below [DB_VERSION] without one.  A database found at
      [DB_VERSION] without the collection stays without it. *)
Theorem init_interleaved (schedule : list Step) (w : World) :
  let l := run schedule (idle (fresh w)) in
  let e := engine (service l) in
  let sent := senders schedule (idle (fresh w)) in
  let done := answered schedule (idle (fresh w)) in
  (opens e = (opens w + length sent)%nat /\
   (connections e = connections w -> sent = callers schedule)) /\
  (sent = (done.*1 ++ pending l)%list /\
   forall p, p ∈ done -> p ∈ settled l) /\
  (omap resolved done = made w e /\ NoDup (omap resolved done) /\
   db (service l) = last (made w e)) /\
  ((upgrades e <= S (upgrades w))%nat /\ records e = records w) /\
  (forall c, c ∈ handles l ->
     c ∈ made w e /\ stored_version e = DB_VERSION /\ snapshots e = opened w).
Proof.
  cbv zeta.
  destruct (interleaving schedule w)
    as (J1 & J2 & J3 & J4 & J5 & J6 & _ & J8 & _ & J10 & J11 & J12).
  repeat split; try assumption.
  - rewrite J4. apply made_NoDup.
  - apply J10. assumption.
  - apply J8. eapply made_some, J10. eassumption.
  - apply J8. eapply made_some, J10. eassumption.
Qed.

Lemma init_interleaved_witness :
  senders [Call 0%nat; Call 1%nat] (idle (fresh blank)) = [0%nat; 1%nat] /\
  snapshots (engine (service (run [Call 0%nat; Call 1%nat; Serve; Serve]
                                  (idle (fresh blank))))) = Some schema /\
  snapshots (engine (service (run [Call 0%nat; Call 1%nat; Serve; Serve]
                                  (idle (fresh bare))))) = None.
Proof.
  split; [|split].
  - destruct (init_interleaved [Call 0%nat; Call 1%nat] blank) as ((_ & Hsent) & _).
    apply Hsent. reflexivity.
  - destruct (init_interleaved [Call 0%nat; Call 1%nat; Serve; Serve] blank)
      as (_ & _ & _ & _ & Hresolved).
    destruct (Hresolved {| conn_id := 1; conn_name := DB_NAME |}) as (_ & _ & Hs).
    + vm_compute. apply list_elem_of_further, list_elem_of_here.
    + rewrite Hs. vm_compute. reflexivity.
  - destruct (init_interleaved [Call 0%nat; Call 1%nat; Serve; Serve] bare)
      as (_ & _ & _ & _ & Hresolved).
    destruct (Hresolved {| conn_id := 0; conn_name := DB_NAME |}) as (_ & _ & Hs).
    + vm_compute. apply list_elem_of_here.
    + rewrite Hs. vm_compute. reflexivity.
Defined.

End Interleaving.


(** ** What the store does besides *)

Module StoreBehaviour.
Import Idb storageService Samples StorageProps EventLoop StoreStates.

(** X1. The first [init] in a browser without the database, the engine
    not failing, creates it at [DB_VERSION] with one collection,
    [snapshots], keyed by [id], empty, with the non-unique indexes
    [timestamp] and [originalUrl]; the other databases stay as they are,
    one upgrade has run, and the service holds the new connection. *)
Theorem first_init_creates_schema (w : World) :
  databases w !! DB_NAME = None ->
  next_fault w = None ->
  init (fresh w) =
    (Resolved tt,
     {| db := Some {| conn_id := connections w; conn_name := DB_NAME |};
        engine :=
          {| databases :=
               <[DB_NAME := {| db_version := DB_VERSION;
                               objectStores := {[ STORE_NAME := schema ]} |}]> (databases w);
             connections := S (connections w);
             faults := tail (faults w);
             trace := (trace w ++ [EvOpen DB_NAME DB_VERSION]) ++
                      [EvUpgradeNeeded DB_NAME 0 DB_VERSION] |} |}).
Proof.
  intros Hd Hf. rewrite init_unopened by reflexivity.
  unfold serve_open, request_open. cbn [fresh engine].
  change (next_fault (log (EvOpen DB_NAME DB_VERSION) w)) with (next_fault w). rewrite Hf.
  cbn [databases log consume_fault]. rewrite Hd. cbn [db_version objectStores].
  change (0 <? DB_VERSION) with true. cbn iota.
  rewrite onupgradeneeded_spec. cbn [objectStores]. rewrite lookup_empty.
  cbn [connect set_database connections databases faults trace log consume_fault db_version].
  rewrite insert_empty. reflexivity.
Qed.

Lemma first_init_creates_schema_witness :
  snapshots (engine (after init (fresh blank))) = Some schema /\
  upgrades (engine (after init (fresh blank))) = 1%nat.
Proof.
  unfold after. rewrite (first_init_creates_schema blank); [|reflexivity..].
  split; vm_compute; reflexivity.
Defined.

(** An [init] without handle that is rejected leaves the service and the
    databases as they were. *)
Lemma rejected_init s e :
  db s = None ->
  (init s).1 = Rejected e ->
  db (after init s) = None /\
  databases (engine (after init s)) = databases (engine s) /\
  (next_fault (engine s) = Some e \/
   (DB_VERSION < stored_version (engine s) /\ e = DOMException "VersionError")).
Proof.
  intros Hdb Hrej. unfold after. rewrite (init_unopened _ Hdb) in *.
  destruct (serve_open _ _ _ _) as [[c|e'] w'] eqn:Ho; [discriminate|].
  cbn [fst snd db engine] in *. injection Hrej as ->.
  apply serve_open_rejected in Ho as (Hd & _ & _ & [Hf|(_ & Hv & He)]).
  - repeat split; auto.
  - repeat split; auto.
Qed.

(** X2. An [init] that is rejected keeps nothing of its failure: [this.db]
    stays unset and the databases are as they were, so the next [init] hands
    the engine an open request of its own.  The error is the one of the
    engine, or [VersionError] for a database stored above [DB_VERSION]. *)
Theorem failed_init_is_retried (s : State) (e : Thrown) :
  db s = None ->
  (init s).1 = Rejected e ->
  db (after init s) = None /\
  databases (engine (after init s)) = databases (engine s) /\
  opens (engine (after init s)) = S (opens (engine s)) /\
  opens (engine (after init (after init s))) = S (S (opens (engine s))) /\
  (next_fault (engine s) = Some e \/
   (DB_VERSION < stored_version (engine s) /\ e = DOMException "VersionError")).
Proof.
  intros Hdb Hrej.
  assert (Hopens : forall s', db s' = None ->
                     opens (engine (after init s')) = S (opens (engine s'))).
  { intros s' Hdb'. unfold after. rewrite (init_unopened _ Hdb').
    pose proof (opens_serve_open (request_open DB_NAME DB_VERSION (engine s'))) as Ho.
    destruct (serve_open _ _ _ _) as [[c|e'] w']; cbn [snd engine] in *;
      rewrite Ho; unfold request_open; rewrite opens_log; cbn; lia. }
  destruct (rejected_init s e Hdb Hrej) as (Hnone & Hd & Herr).
  split; [exact Hnone|]. split; [exact Hd|]. split; [apply Hopens; exact Hdb|].
  split; [|exact Herr].
  rewrite (Hopens _ Hnone), (Hopens _ Hdb). reflexivity.
Qed.

Lemma failed_init_is_retried_witness :
  db (after init (fresh failing_once)) = None /\
  (init (after init (fresh failing_once))).1 = Resolved tt.
Proof.
  split.
  - apply (failed_init_is_retried (fresh failing_once) (DOMException "UnknownError"));
      reflexivity.
  - vm_compute. reflexivity.
Defined.

(** X3. The upgrade handler never throws and is idempotent: it keeps every
    collection the database has, with its records, and adds [snapshots] only
    when it is missing. *)
Theorem onupgradeneeded_keeps (d : Database) :
  exists d',
    onupgradeneeded d = Some d' /\
    onupgradeneeded d' = Some d' /\
    db_version d' = db_version d /\
    objectStores d' !! STORE_NAME = Some (default schema (objectStores d !! STORE_NAME)) /\
    (forall name, name <> STORE_NAME -> objectStores d' !! name = objectStores d !! name).
Proof.
  rewrite onupgradeneeded_spec. eexists. split; [reflexivity|].
  rewrite onupgradeneeded_spec.
  destruct (objectStores d !! STORE_NAME) as [st|] eqn:Hst.
  - rewrite Hst. repeat split; auto.
  - cbn [objectStores db_version]. rewrite lookup_insert_eq. repeat split.
    intros name Hne. apply lookup_insert_ne. congruence.
Qed.

(** X4. A database stored above [DB_VERSION] cannot be opened: with the
    engine serving, [init] and the four methods are rejected with
    [VersionError], the databases are not touched and [this.db] stays
    unset. *)
Theorem newer_database_is_refused (s : State) :
  db s = None ->
  next_fault (engine s) = None ->
  DB_VERSION < stored_version (engine s) ->
  init s = (Rejected (DOMException "VersionError"), after init s) /\
  db (after init s) = None /\
  databases (engine (after init s)) = databases (engine s) /\
  (forall r, saveSnapshot r s = (Rejected (DOMException "VersionError"), after init s)) /\
  (forall i, getSnapshot i s = (Rejected (DOMException "VersionError"), after init s)) /\
  getAllSnapshots s = (Rejected (DOMException "VersionError"), after init s) /\
  (forall i, deleteSnapshot i s = (Rejected (DOMException "VersionError"), after init s)).
Proof.
  intros Hdb Hf Hv.
  assert (Hrej : (init s).1 = Rejected (DOMException "VersionError")).
  { rewrite (init_unopened _ Hdb). unfold serve_open, request_open.
    change (next_fault (log (EvOpen DB_NAME DB_VERSION) (engine s)))
      with (next_fault (engine s)). rewrite Hf.
    cbn [databases log consume_fault]. rewrite old_version.
    replace (stored_version (engine s) <? DB_VERSION) with false
      by (symmetry; apply Z.ltb_ge; lia).
    replace (DB_VERSION <? stored_version (engine s)) with true
      by (symmetry; apply Z.ltb_lt; lia).
    reflexivity. }
  destruct (rejected_init s _ Hdb Hrej) as (Hnone & Hd & _).
  split; [|split; [exact Hnone|split; [exact Hd|]]].
  - unfold after. destruct (init s) as [o s0]. cbn [fst snd] in *. rewrite Hrej. reflexivity.
  - repeat split; intros; apply method_init_rejected; exact Hrej.
Qed.

Lemma newer_database_is_refused_witness :
  (saveSnapshot a_x (fresh newer)).1 = Rejected (DOMException "VersionError") /\
  databases (engine (after (saveSnapshot a_x) (fresh newer))) = databases newer.
Proof.
  destruct (newer_database_is_refused (fresh newer)) as (_ & _ & Hd & Hsave & _);
    [reflexivity|reflexivity|vm_compute; reflexivity|].
  unfold after. rewrite (Hsave a_x). split; [reflexivity|exact Hd].
Defined.

(** X5. A database stored at [DB_VERSION] without the snapshots collection
    is never repaired: whatever calls follow, and whatever the engine fails,
    the databases stay as they are (no upgrade runs at that version, and
    the collection is made nowhere else). *)
Theorem missing_collection_stays_missing (ms : list Method) (s : State) :
  wellformed s = true ->
  stored_version (engine s) = DB_VERSION ->
  snapshots (engine s) = None ->
  databases (engine (perform_all ms s)) = databases (engine s).
Proof.
  revert s. induction ms as [|m ms IH]; intros s Hw Hv Hs; [reflexivity|].
  cbn [perform_all foldl]. fold (perform_all ms (perform s m)).
  assert (Hinit : databases (engine (after init s)) = databases (engine s))
    by (apply init_databases; lia).
  assert (Hstep : wellformed (perform s m) = true /\
                  databases (engine (perform s m)) = databases (engine s)).
  { assert (Hearly : forall mode A (k : IDBObjectStore -> Async State A),
              let result :=
                (await _ <~ init;
                 await h <~ this_db;
                 match h with
                 | None => reject (Reason "Database not initialized")
                 | Some c =>
                     await transaction <~ idb (transaction c [STORE_NAME] mode);
                     await store <~ settle (objectStore transaction STORE_NAME);
                     k store
                 end) s in
              wellformed result.2 = true /\
              databases (engine result.2) = databases (engine s)).
    { intros mode A k.
      apply (method_any mode k
               (fun _ s' => wellformed s' = true /\
                            databases (engine s') = databases (engine s))); [exact Hw| |].
      - intros e s' Hw' _ [->|(c & _ & ->)]; (split; [exact Hw'|exact Hinit]).
      - intros c st _ _ _ Hst. exfalso.
        unfold snapshots in Hst, Hs. rewrite Hinit in Hst. congruence. }
    destruct m as [r|i|i|]; cbn [perform]; unfold after.
    - apply (Hearly ReadWrite unit).
    - apply (Hearly ReadWrite unit).
    - apply (Hearly ReadOnly (option SavedSnapshot)).
    - apply (Hearly ReadOnly (list SavedSnapshot)). }
  destruct Hstep as [Hw' Hd']. rewrite <- Hd'. apply IH.
  - exact Hw'.
  - unfold stored_version. rewrite Hd'. exact Hv.
  - unfold snapshots. rewrite Hd'. exact Hs.
Qed.

Lemma missing_collection_stays_missing_witness :
  databases (engine (perform_all [Save a_x; ListAll; Get "a"; Delete "a"] (fresh bare)))
    = databases bare.
Proof.
  apply (missing_collection_stays_missing _ (fresh bare)); vm_compute; reflexivity.
Defined.

(** X6. On such a database every method is rejected with [NotFoundError]
    once the open request is served: the transaction cannot be made. *)
Theorem missing_collection_is_not_found (s : State) :
  db s = None ->
  next_fault (engine s) = None ->
  stored_version (engine s) = DB_VERSION ->
  snapshots (engine s) = None ->
  (init s).1 = Resolved tt /\
  (forall r, (saveSnapshot r s).1 = Rejected (DOMException "NotFoundError")) /\
  (forall i, (getSnapshot i s).1 = Rejected (DOMException "NotFoundError")) /\
  (getAllSnapshots s).1 = Rejected (DOMException "NotFoundError") /\
  (forall i, (deleteSnapshot i s).1 = Rejected (DOMException "NotFoundError")).
Proof.
  intros Hdb Hf Hv Hs.
  assert (Hi : exists c w', init s = (Resolved tt, {| db := Some c; engine := w' |}) /\
                            conn_name c = DB_NAME /\ databases w' = databases (engine s)).
  { rewrite (init_unopened _ Hdb).
    destruct (serve_open _ _ _ _) as [[c|e] w'] eqn:Ho.
    - exists c, w'. split; [reflexivity|].
      apply serve_open_resolved_cases in Ho as (-> & _ & [(_ & Hd & _)|(Hlt & _)]).
      + split; [reflexivity|exact Hd].
      + change (stored_version (request_open DB_NAME DB_VERSION (engine s)))
          with (stored_version (engine s)) in Hlt. lia.
    - exfalso. apply serve_open_rejected in Ho as (_ & _ & _ & [Hf'|(_ & Hgt & _)]).
      + change (next_fault (request_open DB_NAME DB_VERSION (engine s)))
          with (next_fault (engine s)) in Hf'. congruence.
      + change (stored_version (request_open DB_NAME DB_VERSION (engine s)))
          with (stored_version (engine s)) in Hgt. lia. }
  destruct Hi as (c & w' & Hi & Hc & Hd).
  split; [rewrite Hi; reflexivity|].
  assert (Hs' : snapshots w' = None) by (unfold snapshots in *; rewrite Hd; exact Hs).
  assert (Hsome : exists d, databases w' !! DB_NAME = Some d).
  { rewrite Hd. unfold stored_version in Hv.
    destruct (databases (engine s) !! DB_NAME) as [d|]; [eauto|discriminate]. }
  destruct Hsome as [d Hsome].
  assert (Hall : forall mode A (k : IDBObjectStore -> Async State A),
            ((await _ <~ init;
              await h <~ this_db;
              match h with
              | None => reject (Reason "Database not initialized")
              | Some c =>
                  await transaction <~ idb (transaction c [STORE_NAME] mode);
                  await store <~ settle (objectStore transaction STORE_NAME);
                  k store
              end) s).1 = Rejected (DOMException "NotFoundError")).
  { intros mode A k. rewrite (from_opened _ s _ Hi).
    erewrite reach_missing; [|reflexivity|exact Hc|exact Hs'].
    cbn [fst engine]. rewrite Hsome. reflexivity. }
  repeat split; intros.
  - apply (Hall ReadWrite unit).
  - apply (Hall ReadOnly (option SavedSnapshot)).
  - apply (Hall ReadOnly (list SavedSnapshot)).
  - apply (Hall ReadWrite unit).
Qed.

Lemma missing_collection_is_not_found_witness :
  (getAllSnapshots (fresh bare)).1 = Rejected (DOMException "NotFoundError").
Proof.
  apply (missing_collection_is_not_found (fresh bare)); vm_compute; reflexivity.
Defined.

(** X7. Writes are all or nothing.  A save or a delete that is rejected,
    wherever it stops (the open refused, the collection missing, the request
    failed), leaves the stored records as they were; one that resolves
    changes the record under that [id] and no other. *)
Theorem writes_all_or_nothing (s : State) :
  wellformed s = true ->
  (forall r,
     records (engine (after (saveSnapshot r) s)) =
       match (saveSnapshot r s).1 with
       | Resolved _ => <[KStr (id r) := r]> (records (engine s))
       | Rejected _ => records (engine s)
       end) /\
  (forall i,
     records (engine (after (deleteSnapshot i) s)) =
       match (deleteSnapshot i s).1 with
       | Resolved _ => base.delete (KStr i) (records (engine s))
       | Rejected _ => records (engine s)
       end).
Proof.
  intros Hw. split; intros.
  - apply saveSnapshot_any. exact Hw.
  - apply deleteSnapshot_any. exact Hw.
Qed.

Lemma writes_all_or_nothing_witness :
  (saveSnapshot a_y two_records_failing).1 = Rejected (DOMException "QuotaExceededError") /\
  records (engine (after (saveSnapshot a_y) two_records_failing))
    = records (engine two_records_failing).
Proof.
  split; [vm_compute; reflexivity|].
  rewrite (proj1 (writes_all_or_nothing two_records_failing eq_refl) a_y).
  vm_compute. reflexivity.
Defined.

(** X8. Reads never write.  A lookup or a listing, resolved or rejected,
    leaves the stored records as they were; and a value it resolves with is
    read off those records. *)
Theorem reads_never_write (s : State) :
  wellformed s = true ->
  (forall i,
     records (engine (after (getSnapshot i) s)) = records (engine s) /\
     forall v, (getSnapshot i s).1 = Resolved v -> v = records (engine s) !! KStr i) /\
  (records (engine (after getAllSnapshots s)) = records (engine s) /\
   forall l, (getAllSnapshots s).1 = Resolved l ->
             l = sort newest_first (in_key_order (records (engine s)))).
Proof.
  intros Hw. split.
  - intros i. apply getSnapshot_any. exact Hw.
  - apply getAllSnapshots_any. exact Hw.
Qed.

Lemma reads_never_write_witness :
  records (engine (after getAllSnapshots two_records_failing))
    = records (engine two_records_failing).
Proof. apply (reads_never_write two_records_failing). vm_compute. reflexivity. Defined.

Lemma perform_wellformed s m : wellformed s = true -> wellformed (perform s m) = true.
Proof.
  intros Hw. destruct m; cbn [perform].
  - apply saveSnapshot_any. exact Hw.
  - apply deleteSnapshot_any. exact Hw.
  - apply getSnapshot_any. exact Hw.
  - apply getAllSnapshots_any. exact Hw.
Qed.

Lemma perform_all_wellformed ms s :
  wellformed s = true -> wellformed (perform_all ms s) = true.
Proof.
  revert s. induction ms as [|m ms IH]; intros s Hw; [exact Hw|].
  cbn [perform_all foldl]. apply IH, perform_wellformed, Hw.
Qed.

(** X9. From a first visit on, whatever is called and whatever the engine
    fails, the service holds no handle but one on its own database, the
    collection is keyed by [id], and every stored record sits under its own
    [id]. *)
Theorem records_stay_keyed (ms : list Method) (w : World) :
  databases w !! DB_NAME = None ->
  wellformed (perform_all ms (fresh w)) = true /\
  keyed_by_id (records (engine (perform_all ms (fresh w)))).
Proof.
  intros Hd.
  assert (Hw : wellformed (perform_all ms (fresh w)) = true).
  { apply perform_all_wellformed. unfold wellformed, snapshots. cbn [fresh db engine].
    rewrite Hd. reflexivity. }
  split; [exact Hw|apply wellformed_records; exact Hw].
Qed.

Lemma records_stay_keyed_witness :
  wellformed (perform_all [Save a_x; Save b_z; Delete "a"; ListAll] (fresh failing_once))
    = true.
Proof.
  apply (records_stay_keyed [Save a_x; Save b_z; Delete "a"; ListAll] failing_once).
  reflexivity.
Defined.

(** X10. In sequential use the database is opened at most once per page:
    whatever is called after a page load, and whatever the engine fails, at
    most one connection is made and at most one upgrade runs; and once the
    handle is set it is never replaced and no further open request is
    sent. *)
Theorem one_connection_per_page (ms : list Method) (w : World) :
  (connections (engine (perform_all ms (fresh w))) <= S (connections w))%nat /\
  (upgrades (engine (perform_all ms (fresh w))) <= S (upgrades w))%nat /\
  (forall s c, db s = Some c -> steady s (perform_all ms s)).
Proof.
  split; [|split; [|intros s c; apply perform_all_steady]].
  - assert (H : forall s, db s = None ->
                  (connections (engine (perform_all ms s)) <= S (connections (engine s)))%nat).
    { induction ms as [|m ms IH]; intros s Hdb; [cbn; lia|].
      cbn [perform_all foldl]. fold (perform_all ms (perform s m)).
      destruct (perform_unopened s m Hdb) as [(Hn & Hc & _)|([c Hc'] & Hc & _)].
      - rewrite <- Hc. apply IH. exact Hn.
      - destruct (perform_all_steady ms _ c Hc') as (_ & _ & _ & ->). lia. }
    apply (H (fresh w)). reflexivity.
  - assert (H : forall s, db s = None ->
                  (upgrades (engine (perform_all ms s)) <= S (upgrades (engine s)))%nat).
    { induction ms as [|m ms IH]; intros s Hdb; [cbn; lia|].
      cbn [perform_all foldl]. fold (perform_all ms (perform s m)).
      destruct (perform_unopened s m Hdb) as [(Hn & _ & Hu)|([c Hc'] & _ & Hu)].
      - rewrite <- Hu. apply IH. exact Hn.
      - destruct (perform_all_steady ms _ c Hc') as (_ & _ & -> & _). exact Hu. }
    apply (H (fresh w)). reflexivity.
Qed.

Lemma one_connection_per_page_witness :
  steady two_records (perform_all [Get "a"; Save a_y; ListAll; Delete "b"] two_records).
Proof.
  apply (proj2 (proj2 (one_connection_per_page [Get "a"; Save a_y; ListAll; Delete "b"] blank))
           two_records {| conn_id := 0; conn_name := DB_NAME |}).
  reflexivity.
Defined.

(** X11. A save followed by the delete of the same [id], both resolved,
    leaves no record under that [id] and every other record as it was; when
    the [id] was not stored before, the stored records are back to what they
    were. *)
Theorem save_then_delete (s : State) (r : SavedSnapshot) :
  wellformed s = true ->
  (saveSnapshot r s).1 = Resolved tt ->
  (deleteSnapshot (id r) (after (saveSnapshot r) s)).1 = Resolved tt ->
  records (engine (after (deleteSnapshot (id r)) (after (saveSnapshot r) s)))
    = base.delete (KStr (id r)) (records (engine s)) /\
  (records (engine s) !! KStr (id r) = None ->
   records (engine (after (deleteSnapshot (id r)) (after (saveSnapshot r) s)))
     = records (engine s)).
Proof.
  intros Hw Hsave Hdel.
  destruct (saveSnapshot_any s r Hw) as [Hw1 Hrec1]. rewrite Hsave in Hrec1.
  destruct (deleteSnapshot_any _ (id r) Hw1) as [_ Hrec2]. rewrite Hdel in Hrec2.
  rewrite Hrec2, Hrec1, delete_insert_eq. split; [reflexivity|].
  intros Hnone. apply delete_id. exact Hnone.
Qed.

Lemma save_then_delete_witness :
  records (engine (after (deleteSnapshot "c") (after (saveSnapshot c_w) two_records)))
    = records (engine two_records).
Proof.
  apply (save_then_delete two_records c_w); vm_compute; reflexivity.
Defined.

(** X12. Repeating a write changes nothing more: saving a record twice
    stores what saving it once stores, and deleting an [id] twice leaves what
    deleting it once leaves. *)
Theorem repeated_writes (s : State) :
  wellformed s = true ->
  (forall r,
     (saveSnapshot r s).1 = Resolved tt ->
     (saveSnapshot r (after (saveSnapshot r) s)).1 = Resolved tt ->
     records (engine (after (saveSnapshot r) (after (saveSnapshot r) s)))
       = records (engine (after (saveSnapshot r) s))) /\
  (forall i,
     (deleteSnapshot i s).1 = Resolved tt ->
     (deleteSnapshot i (after (deleteSnapshot i) s)).1 = Resolved tt ->
     records (engine (after (deleteSnapshot i) (after (deleteSnapshot i) s)))
       = records (engine (after (deleteSnapshot i) s))).
Proof.
  intros Hw. split.
  - intros r H1 H2.
    destruct (saveSnapshot_any s r Hw) as [Hw1 Hrec1]. rewrite H1 in Hrec1.
    destruct (saveSnapshot_any _ r Hw1) as [_ Hrec2]. rewrite H2 in Hrec2.
    rewrite Hrec2, Hrec1. apply insert_insert_eq.
  - intros i H1 H2.
    destruct (deleteSnapshot_any s i Hw) as [Hw1 Hrec1]. rewrite H1 in Hrec1.
    destruct (deleteSnapshot_any _ i Hw1) as [_ Hrec2]. rewrite H2 in Hrec2.
    rewrite Hrec2, Hrec1. apply delete_delete_eq.
Qed.

Lemma repeated_writes_witness :
  records (engine (after (deleteSnapshot "a") (after (deleteSnapshot "a") two_records)))
    = records (engine (after (deleteSnapshot "a") two_records)).
Proof.
  apply (proj2 (repeated_writes two_records eq_refl) "a"); vm_compute; reflexivity.
Defined.

(** X13. A save leaves the other records alone: a lookup of another [id]
    that resolves after the save resolves with what the records held
    before it. *)
Theorem save_leaves_others (s : State) (r : SavedSnapshot) (i : string)
        (v : option SavedSnapshot) :
  wellformed s = true ->
  i <> id r ->
  (getSnapshot i (after (saveSnapshot r) s)).1 = Resolved v ->
  v = records (engine s) !! KStr i.
Proof.
  intros Hw Hne Hget.
  destruct (saveSnapshot_any s r Hw) as [Hw1 Hrec1].
  destruct (getSnapshot_any _ i Hw1) as (_ & _ & Hv).
  rewrite (Hv v Hget), Hrec1.
  destruct ((saveSnapshot r s).1); [|reflexivity].
  apply lookup_insert_ne. congruence.
Qed.

Lemma save_leaves_others_witness :
  Some b_z = records (engine two_records) !! KStr "b".
Proof.
  apply (save_leaves_others two_records a_y "b" (Some b_z));
    [reflexivity|discriminate|vm_compute; reflexivity].
Defined.

(** A record is in a listing exactly when it is the one stored under its
    own [id]. *)
Lemma listing_membership s l :
  wellformed s = true ->
  (getAllSnapshots s).1 = Resolved l ->
  forall r, r ∈ l <-> records (engine s) !! KStr (id r) = Some r.
Proof.
  intros Hw Hl r.
  destruct (getAllSnapshots_any s Hw) as (_ & _ & Hlist). rewrite (Hlist l Hl).
  pose proof (wellformed_records s Hw) as Hk.
  rewrite listing_elem_of. split.
  - intros [k Hr]. rewrite <- (Hk k r Hr). exact Hr.
  - eauto.
Qed.

(** X14. A listing holds every stored record once: it has no duplicates,
    as many entries as there are records, and a record is in it exactly
    when it is the one stored under its own [id]. *)
Theorem listing_is_the_store (s : State) (l : list SavedSnapshot) :
  wellformed s = true ->
  (getAllSnapshots s).1 = Resolved l ->
  NoDup l /\
  List.length l = size (records (engine s)) /\
  (forall r, r ∈ l <-> records (engine s) !! KStr (id r) = Some r).
Proof.
  intros Hw Hl. split; [|split; [|apply listing_membership; assumption]].
  - destruct (getAllSnapshots_any s Hw) as (_ & _ & Hlist). rewrite (Hlist l Hl).
    pose proof (wellformed_records s Hw) as Hk.
    rewrite listing_Permutation. apply NoDup_fmap_2_strong; [|apply NoDup_map_to_list].
    intros [k1 r1] [k2 r2] H1%elem_of_map_to_list H2%elem_of_map_to_list. cbn. intros <-.
    apply Hk in H1, H2. congruence.
  - destruct (getAllSnapshots_any s Hw) as (_ & _ & Hlist). rewrite (Hlist l Hl).
    rewrite listing_Permutation, length_fmap. apply length_map_to_list.
Qed.

Lemma listing_is_the_store_witness :
  NoDup [b_z; a_x] /\ List.length [b_z; a_x] = size (records (engine two_records)).
Proof.
  destruct (listing_is_the_store two_records [b_z; a_x]) as (Hn & Hl & _);
    [reflexivity|vm_compute; reflexivity|].
  split; [exact Hn|exact Hl].
Defined.

(** X15. Listing and lookup agree: after a listing that resolved, a lookup
    that resolves finds a record exactly when the listing had a record of
    that [id], and it is that record. *)
Theorem listing_agrees_with_lookup (s : State) (l : list SavedSnapshot) (i : string)
        (v : option SavedSnapshot) :
  wellformed s = true ->
  (getAllSnapshots s).1 = Resolved l ->
  (getSnapshot i (after getAllSnapshots s)).1 = Resolved v ->
  forall r, v = Some r <-> (r ∈ l /\ id r = i).
Proof.
  intros Hw Hl Hv r.
  pose proof (listing_membership s l Hw Hl) as Hin.
  destruct (getAllSnapshots_any s Hw) as (Hw1 & Hrec & _).
  destruct (getSnapshot_any _ i Hw1) as (_ & _ & Hget).
  rewrite (Hget v Hv), Hrec, Hin. split.
  - intros Hr. pose proof (wellformed_records s Hw _ _ Hr) as [= ->]. auto.
  - intros [Hr <-]. exact Hr.
Qed.

Lemma listing_agrees_with_lookup_witness :
  Some a_x = Some a_x <-> (a_x ∈ [b_z; a_x] /\ id a_x = "a").
Proof.
  apply (listing_agrees_with_lookup two_records [b_z; a_x] "a" (Some a_x));
    vm_compute; reflexivity.
Defined.

End StoreBehaviour.




(** ** The order of a listing *)

Module ListingOrder.
Import Idb storageService Samples StorageProps StoreStates.

(** *** The order of the keys *)

Lemma compare_code_units_zero u v : compare_code_units u v = 0 -> u = v.
Proof.
  revert v. induction u as [|x u IH]; intros [|y v]; cbn; try discriminate; [reflexivity|].
  destruct (Z.ltb_spec x y); [discriminate|].
  destruct (Z.ltb_spec y x); [discriminate|].
  intros ->%IH. f_equal. lia.
Qed.

Lemma compare_code_units_antisym u v :
  0 < compare_code_units u v -> compare_code_units v u <= 0.
Proof.
  revert v. induction u as [|x u IH]; intros [|y v]; cbn; try lia.
  destruct (Z.ltb_spec x y), (Z.ltb_spec y x); try lia. apply IH.
Qed.

Lemma compare_code_units_trans u v t :
  compare_code_units u v <= 0 -> compare_code_units v t <= 0 ->
  compare_code_units u t <= 0.
Proof.
  revert v t. induction u as [|x u IH]; intros [|y v] [|z t]; cbn; try lia.
  destruct (Z.ltb_spec x y), (Z.ltb_spec y x), (Z.ltb_spec y z), (Z.ltb_spec z y),
           (Z.ltb_spec x z), (Z.ltb_spec z x); try lia.
  apply IH.
Qed.

Lemma compare_keys_antisym a b : 0 < compare_keys a b -> compare_keys b a <= 0.
Proof.
  destruct a as [m|s], b as [n|t]; cbn; try lia.
  - destruct (Z.compare_spec m n), (Z.compare_spec n m); lia.
  - apply compare_code_units_antisym.
Qed.

Lemma compare_keys_trans a b c :
  compare_keys a b <= 0 -> compare_keys b c <= 0 -> compare_keys a c <= 0.
Proof.
  destruct a as [m|s], b as [n|t], c as [p|u]; cbn; try lia.
  - destruct (Z.compare_spec m n), (Z.compare_spec n p), (Z.compare_spec m p); lia.
  - apply compare_code_units_trans.
Qed.

(** Two JavaScript strings that compare equal are the same string. *)
Lemma compare_keys_text s t :
  text s = true -> text t = true -> compare_keys (KStr s) (KStr t) = 0 -> s = t.
Proof.
  unfold text. intros Hs%bool_decide_eq_true Ht%bool_decide_eq_true Hc%compare_code_units_zero.
  rewrite <- Hs, <- Ht, Hc. reflexivity.
Qed.

Lemma in_key_order_pairs m :
  keyed_by_id m ->
  exists pairs : list (Key * SavedSnapshot),
    in_key_order m = pairs.*2 /\
    StronglySorted (fun p q => compare_keys p.1 q.1 <= 0) pairs /\
    NoDup pairs.*1 /\
    Forall (fun p => p.1 = KStr (id p.2) /\ m !! p.1 = Some p.2) pairs.
Proof.
  intros Hk. exists (sort (fun a b => compare_keys a.1 b.1) (map_to_list m)).
  set (pairs := sort _ _).
  assert (Hperm : pairs ≡ₚ map_to_list m) by apply SortProps.sort_Permutation.
  split; [reflexivity|]. split; [|split].
  - apply Sorted_StronglySorted.
    + intros p q r. apply compare_keys_trans.
    + apply SortProps.sort_Sorted; [auto|]. intros p q. apply compare_keys_antisym.
  - rewrite Hperm. apply NoDup_fst_map_to_list.
  - rewrite Hperm. apply Forall_forall. intros [k r] Hin%elem_of_map_to_list.
    split; [apply (Hk k r Hin)|exact Hin].
Qed.

(** The engine hands the records over in the order of their [id]s. *)
Lemma in_key_order_sorted m :
  keyed_by_id m -> StronglySorted key_not_after (in_key_order m).
Proof.
  intros (pairs & -> & Hsorted & _ & Hkeys)%in_key_order_pairs.
  induction Hsorted as [|p rest Hrest IH Hp]; cbn; [constructor|].
  apply Forall_cons in Hkeys as [[Hp1 _] Hkeys].
  constructor; [apply IH; assumption|].
  apply Forall_fmap, Forall_forall. intros q Hq. cbn.
  rewrite Forall_forall in Hp, Hkeys.
  unfold key_not_after. rewrite <- Hp1, <- (proj1 (Hkeys q Hq)). apply Hp, Hq.
Qed.

(** Among JavaScript strings the order is strict. *)
Lemma in_key_order_strict m :
  keyed_by_id m ->
  (forall k r, m !! k = Some r -> text (id r) = true) ->
  StronglySorted key_before (in_key_order m).
Proof.
  intros (pairs & -> & Hsorted & Hnodup & Hkeys)%in_key_order_pairs Htext.
  induction Hsorted as [|p rest Hrest IH Hp]; cbn; [constructor|].
  apply NoDup_cons in Hnodup as [Hnotin Hnodup].
  apply Forall_cons in Hkeys as [[Hp1 Hpm] Hkeys].
  constructor; [apply IH; assumption|].
  apply Forall_fmap, Forall_forall. intros q Hq. cbn.
  rewrite Forall_forall in Hp, Hkeys.
  pose proof (Hp q Hq) as Hle. destruct (Hkeys q Hq) as [Hq1 Hqm].
  unfold key_before. rewrite Hp1, Hq1 in Hle.
  assert (Hne : compare_keys (KStr (id p.2)) (KStr (id q.2)) <> 0); [|lia].
  intros Hz. apply compare_keys_text in Hz; [|eapply Htext; eassumption..].
  apply Hnotin. rewrite Hp1, Hz, <- Hq1. apply list_elem_of_fmap. exists q. auto.
Qed.

(** *** Strings of the model and JavaScript strings *)

Ltac holds t :=
  replace t with true by (symmetry; first [apply Z.leb_le | apply Z.ltb_lt]; lia).
Ltac fails t :=
  replace t with false by (symmetry; first [apply Z.leb_gt | apply Z.ltb_ge]; lia).

Lemma octet_of_octet b : 0 <= b < 256 -> octet (of_octet b) = b.
Proof.
  intros Hb. unfold octet, of_octet. rewrite N_ascii_embedding by lia. lia.
Qed.

Lemma continuation_true b : 128 <= b < 192 -> continuation b = true.
Proof. intros Hb. unfold continuation. holds (128 <=? b). holds (b <? 192). reflexivity. Qed.

Lemma code_units_one a s : octet a < 128 -> code_units (String a s) = octet a :: code_units s.
Proof. intros H. cbn [code_units]. holds (octet a <? 128). reflexivity. Qed.

Lemma code_units_two a0 a1 s :
  194 <= octet a0 < 224 -> 128 <= octet a1 < 192 ->
  code_units (String a0 (String a1 s)) =
    ((octet a0 - 192) * 64 + (octet a1 - 128)) :: code_units s.
Proof.
  intros H0 H1. cbn [code_units]. fails (octet a0 <? 128).
  holds (194 <=? octet a0). holds (octet a0 <? 224).
  rewrite continuation_true by lia. reflexivity.
Qed.

Lemma code_units_three a0 a1 a2 s :
  224 <= octet a0 < 240 -> 128 <= octet a1 < 192 -> 128 <= octet a2 < 192 ->
  2048 <= (octet a0 - 224) * 4096 + (octet a1 - 128) * 64 + (octet a2 - 128) ->
  code_units (String a0 (String a1 (String a2 s))) =
    ((octet a0 - 224) * 4096 + (octet a1 - 128) * 64 + (octet a2 - 128)) :: code_units s.
Proof.
  intros H0 H1 H2 Hc. cbn [code_units]. fails (octet a0 <? 128).
  fails (octet a0 <? 224). rewrite andb_false_r.
  holds (224 <=? octet a0). holds (octet a0 <? 240).
  rewrite !continuation_true by lia.
  holds (2048 <=? (octet a0 - 224) * 4096 + (octet a1 - 128) * 64 + (octet a2 - 128)).
  reflexivity.
Qed.

Lemma code_units_four a0 a1 a2 a3 s :
  let c := (octet a0 - 240) * 262144 + (octet a1 - 128) * 4096
           + (octet a2 - 128) * 64 + (octet a3 - 128) in
  240 <= octet a0 -> 128 <= octet a1 < 192 -> 128 <= octet a2 < 192 ->
  128 <= octet a3 < 192 -> 65536 <= c < 1114112 ->
  code_units (String a0 (String a1 (String a2 (String a3 s)))) =
    (55296 + (c - 65536) / 1024) :: (56320 + (c - 65536) mod 1024) :: code_units s.
Proof.
  intros c H0 H1 H2 H3 Hc. cbn [code_units]. fold c. fails (octet a0 <? 128).
  fails (octet a0 <? 224). fails (octet a0 <? 240). rewrite !andb_false_r.
  holds (240 <=? octet a0). rewrite !continuation_true by lia.
  holds (65536 <=? c). holds (c <? 1114112). reflexivity.
Qed.

Lemma utf8_cons u rest :
  utf8 (u :: rest) =
    if u <? 128 then String (of_octet u) (utf8 rest)
    else if u <? 2048 then
      String (of_octet (192 + u / 64)) (String (of_octet (128 + u mod 64)) (utf8 rest))
    else
      match rest with
      | v :: rest' =>
          if high_surrogate u && low_surrogate v
          then four_bytes (65536 + (u - 55296) * 1024 + (v - 56320)) (utf8 rest')
          else three_bytes u (utf8 rest)
      | [] => three_bytes u (utf8 rest)
      end.
Proof. destruct rest; reflexivity. Qed.

Lemma code_units_three_bytes u s :
  2048 <= u < 65536 -> code_units (three_bytes u s) = u :: code_units s.
Proof.
  intros Hu. unfold three_bytes.
  rewrite code_units_three; rewrite ?octet_of_octet;
    try (f_equal); try (Z.div_mod_to_equations; lia).
Qed.

Lemma code_units_four_bytes u v s :
  55296 <= u < 56320 -> 56320 <= v < 57344 ->
  code_units (four_bytes (65536 + (u - 55296) * 1024 + (v - 56320)) s) = u :: v :: code_units s.
Proof.
  intros Hu Hv. unfold four_bytes.
  set (c := 65536 + (u - 55296) * 1024 + (v - 56320)).
  assert (Hc : 65536 <= c < 1114112) by (subst c; lia).
  rewrite code_units_four; rewrite ?octet_of_octet;
    try (Z.div_mod_to_equations; lia).
  assert (Hcc : (240 + c / 262144 - 240) * 262144 + (128 + (c / 4096) mod 64 - 128) * 4096
           + (128 + (c / 64) mod 64 - 128) * 64 + (128 + c mod 64 - 128) = c)
    by (Z.div_mod_to_equations; lia).
  rewrite Hcc. subst c. f_equal; [|f_equal]; Z.div_mod_to_equations; lia.
Qed.

(** Every JavaScript string is held by a string of the model: decoding the
    UTF-8 of its code units gives them back. *)
Lemma code_units_utf8 units :
  Forall (fun u => 0 <= u < 65536) units -> code_units (utf8 units) = units.
Proof.
  remember (length units) as n eqn:Hn. revert units Hn.
  induction (lt_wf n) as [n _ IH]. intros units -> Hall.
  destruct units as [|u rest]; [reflexivity|].
  apply Forall_cons in Hall as [Hu Hrest].
  assert (IHrest : code_units (utf8 rest) = rest)
    by (apply (IH (length rest)); [cbn; lia|reflexivity|exact Hrest]).
  rewrite utf8_cons.
  destruct (Z.ltb_spec u 128).
  { rewrite code_units_one, octet_of_octet, IHrest by (rewrite ?octet_of_octet; lia).
    reflexivity. }
  destruct (Z.ltb_spec u 2048).
  { rewrite code_units_two; rewrite ?octet_of_octet, ?IHrest;
      try (f_equal); Z.div_mod_to_equations; lia. }
  destruct rest as [|v rest'].
  { rewrite code_units_three_bytes by lia. reflexivity. }
  destruct (high_surrogate u && low_surrogate v) eqn:Hpair.
  - apply andb_true_iff in Hpair as [Hh Hl]. unfold high_surrogate, low_surrogate in *.
    apply Forall_cons in Hrest as [Hv Hrest'].
    rewrite code_units_four_bytes by lia.
    rewrite (IH (length rest')); [reflexivity|cbn; lia|reflexivity|exact Hrest'].
  - rewrite code_units_three_bytes by lia. rewrite IHrest. reflexivity.
Qed.

Lemma text_utf8 units : Forall (fun u => 0 <= u < 65536) units -> text (utf8 units) = true.
Proof. intros H. unfold text. rewrite (code_units_utf8 _ H). apply bool_decide_eq_true_2. reflexivity. Qed.
(** [sort] is stable: what compares equal keeps its order. *)
Section Stable.
Variable before : SavedSnapshot -> SavedSnapshot -> Prop.

Lemma insert_by_stable x l :
  StronglySorted (ranked before) l -> Forall (before x) l ->
  StronglySorted (ranked before) (insert_by newest_first x l).
Proof.
  induction 1 as [|y t Ht IH Hy]; intros Hx; cbn; [repeat constructor|].
  apply Forall_cons in Hx as [Hxy Hxt]. unfold newest_first at 1.
  destruct (savedAt y - savedAt x <=? 0) eqn:Hc.
  - apply Z.leb_le in Hc. constructor; [constructor; assumption|].
    constructor.
    + unfold ranked. destruct (decide (savedAt y = savedAt x)); [right|left]; auto with lia.
    + rewrite Forall_forall in Hy, Hxt |- *. intros z Hz.
      specialize (Hy z Hz). specialize (Hxt z Hz). unfold ranked in *.
      destruct (decide (savedAt z = savedAt x)); [right|left]; auto with lia.
  - apply Z.leb_gt in Hc. constructor; [apply IH; exact Hxt|].
    rewrite SortProps.insert_by_Permutation. constructor; [|exact Hy].
    left. lia.
Qed.

Lemma sort_stable l :
  StronglySorted before l -> StronglySorted (ranked before) (sort newest_first l).
Proof.
  induction 1 as [|x l Hl IH Hx]; cbn; [constructor|].
  apply insert_by_stable; [exact IH|].
  fold (sort newest_first l). rewrite SortProps.sort_Permutation. exact Hx.
Qed.
End Stable.

(** X24. A listing is in one definite order: most recently saved first,
    and records saved at the same time in the order of their [id]s as the
    engine has it, by UTF-16 code units, which the stable sort keeps.  For
    [id]s that hold JavaScript strings this order is strict: of two such
    records the one with the smaller [id] comes first.  (Every JavaScript
    string is held by a string of the model, [text_utf8].) *)
Theorem listing_order (s : State) (l : list SavedSnapshot) :
  wellformed s = true ->
  (getAllSnapshots s).1 = Resolved l ->
  StronglySorted (ranked key_not_after) l /\
  (forallb (fun r => text (id r)) l = true -> StronglySorted listed_before l).
Proof.
  intros Hw Hl. destruct (getAllSnapshots_any s Hw) as (_ & _ & Hlist).
  rewrite (Hlist l Hl). split.
  - apply sort_stable, in_key_order_sorted, wellformed_records, Hw.
  - intros Ht. apply (sort_stable key_before).
    apply in_key_order_strict; [apply wellformed_records, Hw|].
    intros k r Hkr. rewrite forallb_forall in Ht. apply Ht.
    apply list_elem_of_In, listing_elem_of. eauto.
Qed.

Lemma listing_order_witness : StronglySorted listed_before [c_w; g_v; t_u; a_x].
Proof.
  apply (listing_order
           (after (saveSnapshot c_w) (after (saveSnapshot a_x)
              (after (saveSnapshot g_v) (after (saveSnapshot t_u) (fresh blank)))))
           [c_w; g_v; t_u; a_x]);
    vm_compute; reflexivity.
Defined.

End ListingOrder.


(** ** Calls of [init] after the store is open *)

Module LoopBehaviour.
Import Idb storageService EventLoop Samples.

(** X23. Under the event loop too, an open store stays as it is: once
    [this.db] is set and no request waits, every further call of [init]
    settles at once with that handle, whatever the schedule, and nothing
    reaches the engine. *)
Theorem late_calls_share_the_handle (schedule : list Step) (l : Loop) (c : IDBDatabase) :
  db (service l) = Some c ->
  pending l = [] ->
  service (run schedule l) = service l /\
  pending (run schedule l) = [] /\
  settled (run schedule l) =
    (settled l ++ ((fun caller => (caller, Resolved c)) <$> callers schedule))%list.
Proof.
  revert l. induction schedule as [|e rest IH]; intros l Hdb Hp.
  - cbn. rewrite app_nil_r. auto.
  - cbn [run foldl]. fold (run rest (step l e)). destruct e as [caller|]; cbn [step].
    + assert (Hcall : call caller l =
                      {| service := service l; pending := pending l;
                         settled := settled l ++ [(caller, Resolved c)] |})
        by (unfold call; rewrite Hdb; reflexivity).
      rewrite Hcall.
      destruct (IH {| service := service l; pending := pending l;
                      settled := settled l ++ [(caller, Resolved c)] |} Hdb Hp)
        as (-> & -> & ->).
      cbn [service settled callers omap fmap list_fmap]. rewrite <- app_assoc. auto.
    + assert (Hserve : serve l = l) by (unfold serve; rewrite Hp; reflexivity).
      rewrite Hserve. apply IH; assumption.
Qed.

Lemma late_calls_share_the_handle_witness :
  service (run [Call 7%nat; Serve; Call 8%nat] (idle two_records)) = two_records.
Proof.
  apply (late_calls_share_the_handle [Call 7%nat; Serve; Call 8%nat] (idle two_records)
           {| conn_id := 0; conn_name := DB_NAME |}); reflexivity.
Defined.

End LoopBehaviour.


(** ** What the Wayback calls do besides *)

Module WaybackBehaviour.
Import waybackService views Samples.

Lemma sending_nothing b : sending b [] = b.
Proof. unfold sending. rewrite app_nil_r. destruct b; reflexivity. Qed.

(** One case distinction the code makes on what the browser gives. *)
Ltac answer :=
  match goal with
  | |- context [network ?b ?r] => destruct (network b r) as [?res|]
  | |- context [ok ?r] => destruct (ok r)
  | |- context [is_json_type ?t] => destruct (is_json_type t)
  | |- context [body ?r] => destruct (body r) as [?t|]
  | |- context [JSON_parse ?t] => destruct (JSON_parse t) as [?j|]
  | |- context [includes ?t ?p] => destruct (includes t p)
  | |- context [(String.length ?t =? 0)%nat] => destruct (String.length t =? 0)%nat
  | |- context [map_rows ?l] => destruct (map_rows l)
  | |- context [match ?j with JNull => _ | _ => _ end] => destruct j as [| | | |[|? [|? ?]]|]
  end; cbn [negb fst snd].

Section Service.
Context `{Imports}.

(** What [savePageNow] sends. *)
Lemma savePageNow_sends url accessKey secretKey b :
  exists reqs,
    (savePageNow url accessKey secretKey b).2 = sending b reqs /\
    (reqs = [] \/
     exists u, live b = true /\ encodeURIComponent url = Some u /\
               reqs = [capture_request u accessKey secretKey]).
Proof.
  unfold live.
  unfold savePageNow, capture_request, andThen, tryCatch, demo, encoded, fetch, text,
    resolve, throw.
  fold (sending b).
  destruct (truthy (isDemoMode b)); cbn [negb snd].
  { exists []. rewrite sending_nothing. auto. }
  destruct (bool_decide (accessKey = EmptyString) || bool_decide (secretKey = EmptyString)).
  { exists []. rewrite sending_nothing. auto. }
  destruct (encodeURIComponent url) as [u|]; cbn [snd].
  - eexists. split; [|right; exists u; repeat split; reflexivity].
    unfold sending. repeat answer; reflexivity.
  - exists []. rewrite sending_nothing. auto.
Qed.

(** X16. A call sends at most one request and leaves [localStorage] and the
    network alone.  In demo mode, or when the url cannot be encoded, it
    sends none; otherwise the one request is the GET of the availability
    endpoint or of the CDX endpoint with the encoded url, or the POST of the
    save endpoint. *)
Theorem at_most_one_request (url accessKey secretKey : string) (b : Browser) :
  let one (r : string -> Request) (reqs : list Request) :=
    reqs = [] \/
    exists u, live b = true /\ encodeURIComponent url = Some u /\ reqs = [r u] in
  (exists reqs, (checkAvailability url b).2 = sending b reqs /\
                one (fun u => GET (WAYBACK_AVAILABLE ++ "?url=" ++ u)) reqs) /\
  (exists reqs, (fetchCDX url b).2 = sending b reqs /\
                one (fun u => GET (CDX ++ "?url=" ++ u ++
                  "&output=json&limit=100&fl=urlkey,timestamp,original,mimetype,statuscode,digest,length"))
                    reqs) /\
  (exists reqs, (savePageNow url accessKey secretKey b).2 = sending b reqs /\
                one (fun u => capture_request u accessKey secretKey) reqs).
Proof.
  cbv zeta. split; [|split; [|apply savePageNow_sends]]; unfold live;
    unfold checkAvailability, fetchCDX, andThen, tryCatch, demo,
      encoded, fetch, json, text, resolve, throw, settle;
    fold (sending b);
    (destruct (truthy (isDemoMode b)); cbn [negb snd];
     [exists []; rewrite sending_nothing; auto|]);
    (destruct (encodeURIComponent url) as [u|]; cbn [snd];
     [|exists []; rewrite sending_nothing; auto]);
    (eexists; split; [|right; exists u; repeat split; reflexivity]);
    unfold sending; repeat answer; reflexivity.
Qed.

(** X17. A capture that resolves has been accepted: [savePageNow] never
    resolves with [saved: false], and with demo mode off it resolves only
    when both keys are there and the save endpoint answered the one request
    with an OK status; no failure is replaced by mock data. *)
Theorem capture_resolves_only_when_accepted
        (url accessKey secretKey : string) (b : Browser) (r : SaveResult) :
  (savePageNow url accessKey secretKey b).1 = Resolved r ->
  saved r = true /\
  (live b = true ->
   accessKey <> EmptyString /\ secretKey <> EmptyString /\
   exists u res,
     encodeURIComponent url = Some u /\
     network b (capture_request u accessKey secretKey) = Some res /\
     ok res = true /\
     r = {| saved := true; message := "Capture request submitted." |}).
Proof.
  unfold live, savePageNow, capture_request, andThen, tryCatch, demo, encoded, fetch, text,
    resolve, throw.
  destruct (truthy (isDemoMode b)); cbn [negb fst].
  { intros [= <-]. split; [reflexivity|discriminate]. }
  destruct (bool_decide (accessKey = EmptyString)) eqn:Ha; cbn [orb]; [discriminate|].
  destruct (bool_decide (secretKey = EmptyString)) eqn:Hs; [discriminate|].
  apply bool_decide_eq_false in Ha, Hs.
  destruct (encodeURIComponent url) as [u|]; cbn [fst]; [|discriminate].
  destruct (network b _) as [res|] eqn:Hn; cbn [fst]; [|discriminate].
  destruct (ok res) eqn:Hok; cbn [fst].
  - intros [= <-]. split; [reflexivity|]. intros _. repeat split; try assumption.
    exists u, res. auto.
  - destruct (body res) as [t|]; cbn [fst]; [|discriminate].
    destruct (includes t _); discriminate.
Qed.

Lemma map_rows_arrays (cellss : list (list JSON)) :
  map_rows (JArr <$> cellss) = Resolved (record_of_cells <$> cellss).
Proof.
  induction cellss as [|cells rest IH]; [reflexivity|].
  cbn [fmap list_fmap map_rows]. change (list_fmap _ _ JArr rest) with (JArr <$> rest).
  rewrite IH. reflexivity.
Qed.

Lemma row_record_null row :
  (exists e, row_record row = Rejected e) <-> row = JNull.
Proof.
  split.
  - intros [e He]. destruct row; try reflexivity; discriminate.
  - intros ->. eexists. reflexivity.
Qed.

Lemma map_rows_null rows : JNull ∈ rows -> exists e, map_rows rows = Rejected e.
Proof.
  induction rows as [|row rest IH]; [intros Hin; inversion Hin|].
  intros [<-|Hin]%elem_of_cons; cbn [map_rows].
  - eexists. reflexivity.
  - destruct (row_record row); [|eauto]. destruct (IH Hin) as [e ->]. eauto.
Qed.

Lemma map_rows_no_null rows :
  JNull ∉ rows -> exists rs, map_rows rows = Resolved rs /\ List.length rs = List.length rows.
Proof.
  induction rows as [|row rest IH]; [exists []; auto|].
  intros [Hrow Hrest]%not_elem_of_cons. cbn [map_rows].
  destruct (row_record row) as [r|e] eqn:Hr.
  - destruct (IH Hrest) as (rs & -> & Hlen). exists (r :: rs). cbn. auto.
  - exfalso. apply Hrow. symmetry. apply row_record_null. eauto.
Qed.

(** What [fetchCDX] does with an answer that is OK and whose body is a
    JSON array of a header and rows. *)
Lemma fetchCDX_rows url b res t header rows :
  live b = true -> cdx_answer url b = Some res -> ok res = true ->
  is_json_type (content_type res) = true ->
  body res = Some t -> JSON_parse t = Some (JArr (header :: rows)) ->
  (fetchCDX url b).1 =
    match map_rows rows with
    | Resolved rs => Resolved rs
    | Rejected _ => Resolved (getMockCDX url)
    end.
Proof.
  unfold live, cdx_answer. intros Hlive Hans Hok Hty Hbody Hparse.
  unfold fetchCDX, andThen, tryCatch, demo, encoded, fetch, json, text, resolve, throw, settle.
  destruct (truthy (isDemoMode b)); [discriminate|].
  destruct (encodeURIComponent url) as [u|]; [|discriminate]. cbn [mbind option_bind] in Hans.
  rewrite Hans, Hok, Hty, Hbody, Hparse. cbn [negb fst].
  destruct rows as [|row rows]; [reflexivity|].
  destruct (map_rows (row :: rows)); reflexivity.
Qed.

(** X18. The rows of a CDX answer become records by position: the first
    entry of the array, the header, is dropped unread; every further row that
    is an array gives one record, in order, with its first seven cells
    ([undefined] where the row is short). *)
Theorem cdx_rows_become_records
        (url : string) (b : Browser) (res : Response) (t : string) (header : JSON)
        (cellss : list (list JSON)) :
  live b = true ->
  cdx_answer url b = Some res ->
  ok res = true ->
  is_json_type (content_type res) = true ->
  body res = Some t ->
  JSON_parse t = Some (JArr (header :: (JArr <$> cellss))) ->
  (fetchCDX url b).1 = Resolved (record_of_cells <$> cellss).
Proof.
  intros. erewrite fetchCDX_rows by eassumption. rewrite map_rows_arrays. reflexivity.
Qed.

(** X19. One [null] among the rows of a CDX answer loses them all: the
    result is the mock data.  Without a [null] row the result has one
    record for each row. *)
Theorem cdx_null_row_loses_all
        (url : string) (b : Browser) (res : Response) (t : string) (header : JSON)
        (rows : list JSON) :
  live b = true ->
  cdx_answer url b = Some res ->
  ok res = true ->
  is_json_type (content_type res) = true ->
  body res = Some t ->
  JSON_parse t = Some (JArr (header :: rows)) ->
  (JNull ∈ rows -> (fetchCDX url b).1 = Resolved (getMockCDX url)) /\
  (JNull ∉ rows ->
   exists rs, (fetchCDX url b).1 = Resolved rs /\ List.length rs = List.length rows).
Proof.
  intros. erewrite fetchCDX_rows by eassumption. split.
  - intros [e ->]%map_rows_null. reflexivity.
  - intros (rs & -> & Hlen)%map_rows_no_null. eauto.
Qed.

(** X20. No history is the empty list, not the mock data: an OK answer not
    announced as JSON with an empty body, and an OK JSON answer that is not
    an array of at least two entries, both give []. *)
Theorem cdx_no_history (url : string) (b : Browser) (res : Response) :
  live b = true ->
  cdx_answer url b = Some res ->
  ok res = true ->
  (is_json_type (content_type res) = false -> body res = Some EmptyString ->
   (fetchCDX url b).1 = Resolved []) /\
  (forall t j,
     is_json_type (content_type res) = true -> body res = Some t ->
     JSON_parse t = Some j ->
     (forall header row rows, j <> JArr (header :: row :: rows)) ->
     (fetchCDX url b).1 = Resolved []).
Proof.
  unfold live, cdx_answer. intros Hlive Hans Hok.
  unfold fetchCDX, andThen, tryCatch, demo, encoded, fetch, json, text, resolve, throw, settle.
  destruct (truthy (isDemoMode b)); [discriminate|].
  destruct (encodeURIComponent url) as [u|]; [|discriminate]. cbn [mbind option_bind] in Hans.
  rewrite Hans, Hok. cbn [negb fst]. split.
  - intros -> ->. reflexivity.
  - intros t j -> -> -> Hj. cbn [negb fst].
    destruct j as [| | | |[|header [|row rows]]|]; try reflexivity.
    exfalso. eapply Hj. reflexivity.
Qed.

(** X21. Demo mode is on only when the stored settings say so: the item
    [omnidash_settings] is there, is not empty, parses to an object, and the
    object has a truthy [demoMode].  Settings that are missing, cannot be
    read or are broken leave the service live. *)
Theorem demo_mode_only_when_set (b : Browser) :
  live b = false ->
  exists items settings fields d,
    localStorage b = Some items /\
    items !! "omnidash_settings" = Some settings /\
    settings <> EmptyString /\
    JSON_parse settings = Some (JObj fields) /\
    lookup_field "demoMode" fields = Some d /\
    truthy (Some d) = true.
Proof.
  unfold live, isDemoMode.
  destruct (localStorage b) as [items|] eqn:Hl; [|discriminate].
  destruct (items !! "omnidash_settings") as [settings|] eqn:Hi; [|discriminate].
  destruct (bool_decide (settings = EmptyString)) eqn:He; [discriminate|].
  apply bool_decide_eq_false in He.
  destruct (JSON_parse settings) as [v|] eqn:Hp; [|discriminate].
  destruct v as [| | | | |fields]; try discriminate.
  cbn [property]. destruct (lookup_field "demoMode" fields) as [d|] eqn:Hd; [|discriminate].
  intros Ht. exists items, settings, fields, d. repeat split; try assumption; try reflexivity.
  destruct (truthy (Some d)); [reflexivity|discriminate].
Qed.

Lemma savePageNow_without_credentials_eq url accessKey secretKey b :
  accessKey = EmptyString \/ secretKey = EmptyString ->
  savePageNow url accessKey secretKey b =
    (if live b
     then Rejected (Error "Missing Credentials. Please configure API keys in Settings.")
     else Resolved {| saved := true;
                      message := "Mock Mode: URL successfully queued for capture." |},
     b).
Proof.
  intros Hempty. unfold savePageNow, andThen, demo, live.
  destruct (truthy (isDemoMode b)); [reflexivity|]. cbn [negb].
  destruct Hempty as [-> | ->]; [reflexivity|].
  rewrite (bool_decide_eq_true_2 (EmptyString = EmptyString)) by reflexivity.
  rewrite orb_true_r. reflexivity.
Qed.

(** X22. The views and the service agree on the credentials: [isValid] of
    the Settings view is the truth value of [hasCreds] of the Dashboard, and
    with demo mode off it is false exactly when [savePageNow] stops at the
    missing-credentials error without sending anything. *)
Theorem credentials_agree (url accessKey secretKey : string) (b : Browser) :
  live b = true ->
  isValid accessKey secretKey
    = negb (bool_decide (hasCreds accessKey secretKey = EmptyString)) /\
  (isValid accessKey secretKey = false <->
   savePageNow url accessKey secretKey b
     = (Rejected (Error "Missing Credentials. Please configure API keys in Settings."), b)).
Proof.
  intros Hlive. unfold isValid, hasCreds. split.
  - destruct accessKey, secretKey; reflexivity.
  - split.
    + intros Hv. rewrite savePageNow_without_credentials_eq.
      * rewrite Hlive. reflexivity.
      * destruct accessKey, secretKey; auto; discriminate.
    + intros Heq. destruct accessKey as [|a ak], secretKey as [|c sk]; try reflexivity.
      exfalso.
      destruct (savePageNow_sends url (String a ak) (String c sk) b)
        as (reqs & Hstate & Hone).
      rewrite Heq in Hstate. cbn [snd] in Hstate.
      destruct Hone as [->|(u & _ & Hu & ->)].
      * revert Heq. unfold savePageNow, andThen, demo. unfold live in Hlive.
        destruct (truthy (isDemoMode b)); [discriminate|].
        rewrite (bool_decide_eq_false_2 (String a ak = EmptyString)) by discriminate.
        rewrite (bool_decide_eq_false_2 (String c sk = EmptyString)) by discriminate.
        cbn [orb]. unfold tryCatch, andThen, encoded, fetch, text, resolve, throw.
        destruct (encodeURIComponent url) as [u|]; cbn [fst]; [|discriminate].
        intros Heq. apply (f_equal (fun p => List.length (sent p.2))) in Heq.
        revert Heq. repeat answer; cbn [snd sent]; rewrite List.length_app; cbn; lia.
      * apply (f_equal (fun x => List.length (sent x))) in Hstate.
        unfold sending in Hstate. cbn [sent] in Hstate.
        rewrite List.length_app in Hstate. cbn in Hstate. lia.
Qed.

End Service.

Lemma capture_resolves_only_when_accepted_witness :
  saved {| saved := true; message := "Capture request submitted." |} = true.
Proof.
  apply (capture_resolves_only_when_accepted (H := archive_imports)
           "https://example.com" "key" "secret" accepting_browser).
  vm_compute. reflexivity.
Defined.

Lemma cdx_rows_become_records_witness :
  (fetchCDX (H := archive_imports) "example.com" cdx_browser).1
    = Resolved (record_of_cells <$> cdx_cells).
Proof.
  apply (cdx_rows_become_records (H := archive_imports) "example.com" cdx_browser
           (ok_answer (Some "application/json") cdx_text) cdx_text
           (JArr [JStr "urlkey"; JStr "timestamp"]) cdx_cells);
    vm_compute; reflexivity.
Defined.

Lemma cdx_null_row_loses_all_witness :
  (fetchCDX (H := archive_imports) "example.com" cdx_null_browser).1
    = Resolved (getMockCDX (Imports := archive_imports) "example.com").
Proof.
  apply (cdx_null_row_loses_all (H := archive_imports) "example.com" cdx_null_browser
           (ok_answer (Some "application/json") cdx_null_text) cdx_null_text
           (JArr [JStr "urlkey"; JStr "timestamp"])
           [JArr [JStr "com,example)/"; JStr "2020"]; JNull]);
    try (vm_compute; reflexivity).
  apply list_elem_of_further, list_elem_of_here.
Defined.

Lemma cdx_no_history_witness :
  (fetchCDX (H := archive_imports) "example.com" empty_browser).1 = Resolved [].
Proof.
  apply (cdx_no_history (H := archive_imports) "example.com" empty_browser
           (ok_answer None EmptyString)); vm_compute; reflexivity.
Defined.

Lemma demo_mode_only_when_set_witness :
  exists items settings fields d,
    localStorage demo_browser = Some items /\
    items !! "omnidash_settings" = Some settings /\
    settings <> EmptyString /\
    JSON_parse (Imports := archive_imports) settings = Some (JObj fields) /\
    lookup_field "demoMode" fields = Some d /\
    truthy (Some d) = true.
Proof.
  apply (demo_mode_only_when_set (H := archive_imports) demo_browser).
  vm_compute. reflexivity.
Defined.

Lemma credentials_agree_witness :
  isValid "key" EmptyString = false <->
  savePageNow (H := archive_imports) "https://example.com" "key" EmptyString accepting_browser
    = (Rejected (Error "Missing Credentials. Please configure API keys in Settings."),
       accepting_browser).
Proof.
  apply (credentials_agree (H := archive_imports) "https://example.com" "key" EmptyString
           accepting_browser).
  vm_compute. reflexivity.
Defined.

End WaybackBehaviour.
